(** * Lente de Custos: the report aggregation and export engine of [src/App.tsx]

    A shallow embedding of the logic of the [App] component: the text
    normaliser [limparTexto], the spreadsheet ingestor inside
    [handleFileUpload], the manual ingestor [handleAdd], the summary values
    ([totalInicial], [totalFinal], [economia], [contaMaisUsada], [contaTop],
    [valorContaTop]), the row mapping of [exportToExcel] and the page layout of
    [exportToPDF].

    Conventions.
    - A JavaScript number is an IEEE 754 binary64 value: Rocq's primitive
      [float], whose operations are the same roundings.
    - A JavaScript string is a sequence of UTF-16 code units, [list N].
    - Values that flow through [any] (spreadsheet cells, and therefore the text
      fields of an imported [Entry]) are [value]s; TypeScript's annotations are
      erased at run time and do not restrict them.
    - What the host provides (number parsing and printing, Unicode
      normalisation, locale formatting, jsPDF's line wrapping) is a
      [Runtime]; every definition that calls it takes it as an argument.
    - The object literal [{}] used as a dictionary is modelled by its own
      properties, kept in the order [Object.keys] lists them, and by what it
      inherits from [Object.prototype], taken as the engine creates it. *)

From Stdlib Require Import String Ascii ZArith NArith Bool Lia Floats List.
From Stdlib Require Strings.Byte Uint63.
Import ListNotations.

Set Implicit Arguments.

(* ================================================================== *)
(** ** Strings *)

Module Str.

Definition codeunit := N.
Definition jsstring := list codeunit.

(** Source literals are written as UTF-8 text and decoded to code units
    (all literals of the program lie in the Basic Multilingual Plane). *)
Fixpoint utf8_decode (bs : list N) : jsstring :=
  match bs with
  | [] => []
  | b0 :: t =>
      if (b0 <? 128)%N then b0 :: utf8_decode t
      else if (b0 <? 224)%N then
        match t with
        | b1 :: t' => ((b0 - 192) * 64 + (b1 - 128))%N :: utf8_decode t'
        | [] => []
        end
      else
        match t with
        | b1 :: b2 :: t' =>
            ((b0 - 224) * 4096 + (b1 - 128) * 64 + (b2 - 128))%N :: utf8_decode t'
        | _ => []
        end
  end.

Definition js (s : string) : jsstring :=
  utf8_decode (map Byte.to_N (list_byte_of_string s)).

Fixpoint eqb (a b : jsstring) : bool :=
  match a, b with
  | [], [] => true
  | x :: a', y :: b' => (x =? y)%N && eqb a' b'
  | _, _ => false
  end.

Definition is_empty (s : jsstring) : bool :=
  match s with [] => true | _ => false end.

(** [a < b] on strings: the order of the code units, a proper prefix coming
    first. *)
Fixpoint less (a b : jsstring) : bool :=
  match a, b with
  | _, [] => false
  | [], _ :: _ => true
  | x :: a', y :: b' =>
      if (x <? y)%N then true
      else if (y <? x)%N then false
      else less a' b'
  end.

End Str.
Export Str.

(* ================================================================== *)
(** ** Numbers and run-time values *)

Module Num.

Definition number := float.

Definition zero : number := 0%float.
Definition NaN : number := nan.

(** [a > b] *)
Definition gt (a b : number) : bool := (b <? a)%float.

(** ToBoolean on a number: [NaN], [+0] and [-0] are falsy. *)
Definition truthy (x : number) : bool :=
  negb (PrimFloat.is_nan x || PrimFloat.is_zero x).

(** [x || d] where [x] is a number. *)
Definition or_else (x d : number) : number := if truthy x then x else d.

End Num.
Export Num.

(** The primitive values a sheet cell or a form field can hold; [VUndefined]
    is also what reading an absent property gives. *)
Inductive value : Type :=
| VUndefined
| VBool (b : bool)
| VNumber (n : number)
| VString (s : jsstring).

(** What the host environment computes: [StringToNumber] is [Number(s)] on a
    string, [NumberToString] is [String(n)] on a number, [normalizeNFD] is
    [s.normalize("NFD")]; [splitTextToSize] is jsPDF's
    [pdf.splitTextToSize(text, 180)] at the body font size;
    [toLocaleStringBRL] is [n.toLocaleString("pt-BR", {style: "currency",
    currency: "BRL"})]; [toFixed2] is [n.toFixed(2)]; [functionToString name]
    is the source text [Function.prototype.toString] gives for the built-in
    function of that name. *)
Record Runtime : Type := {
  StringToNumber : jsstring -> number;
  NumberToString : number -> jsstring;
  normalizeNFD : jsstring -> jsstring;
  toLocaleStringBRL : number -> jsstring;
  toFixed2 : number -> jsstring;
  splitTextToSize : jsstring -> list jsstring;
  functionToString : jsstring -> jsstring
}.

Definition ToBoolean (v : value) : bool :=
  match v with
  | VUndefined => false
  | VBool b => b
  | VNumber n => truthy n
  | VString s => negb (is_empty s)
  end.

(** [a || b] *)
Definition js_or (a b : value) : value := if ToBoolean a then a else b.

Definition ToNumber (R : Runtime) (v : value) : number :=
  match v with
  | VUndefined => NaN
  | VBool true => 1%float
  | VBool false => zero
  | VNumber n => n
  | VString s => StringToNumber R s
  end.

Definition ToString (R : Runtime) (v : value) : jsstring :=
  match v with
  | VUndefined => js "undefined"
  | VBool true => js "true"
  | VBool false => js "false"
  | VNumber n => NumberToString R n
  | VString s => s
  end.

(* ================================================================== *)
(** ** The data model *)

(** [type Entry]. The numeric fields are numbers on every path that builds an
    entry; the text fields hold whatever the ingestor stored. *)
Module Entry.
Record t : Type := mk {
  fornecedor : value;
  valorInicial : number;
  valorFinal : number;
  contaRazao : value;
  area : value;
  mesAno : value;
  periodo : value
}.
End Entry.
Abbreviation Entry := Entry.t.

(** A row of [XLSX.utils.sheet_to_json]: an object from column names to cell
    values; [row[name]] of an absent column is [undefined]. *)
Definition row := list (jsstring * value).

Fixpoint row_get (r : row) (k : jsstring) : value :=
  match r with
  | [] => VUndefined
  | (k', v) :: r' => if Str.eqb k' k then v else row_get r' k
  end.

(** The component state: [data] and the nine form fields. The two numeric
    inputs have type [number | ""]; [None] is the empty string. *)
Record AppState : Type := mkState {
  data : list Entry;
  fornecedorInicial : jsstring;
  valorInicial : option number;
  fornecedorFinal : jsstring;
  valorFinal : option number;
  contaRazao : jsstring;
  area : jsstring;
  mes : jsstring;
  ano : jsstring;
  periodo : jsstring
}.

Definition initial : AppState := mkState [] [] None [] None [] [] [] [] [].

(** Truthiness and [Number(...)] of a [number | ""] state. *)
Definition field_truthy (v : option number) : bool :=
  match v with Some x => truthy x | None => false end.

Definition field_Number (v : option number) : number :=
  match v with Some x => x | None => zero end.

(* ================================================================== *)
(** ** Record ingestors *)

Section Ingest.
Variable R : Runtime.

(** The row mapping of [handleFileUpload] (lines 90-98); mapped over the
    sheet it gives [importedData], the specification's [fromTabularRows]. *)
Definition importRow (r : row) : Entry :=
  Entry.mk
    (js_or (row_get r (js "Fornecedor")) (VString []))
    (or_else (ToNumber R (row_get r (js "Valor Cotado (R$)"))) zero)
    (or_else (ToNumber R (row_get r (js "Valor Final (R$)"))) zero)
    (js_or (row_get r (js "Conta Razão")) (VString []))
    (js_or (row_get r (js "Área")) (VString []))
    (js_or (row_get r (js "Mês/Ano")) (VString []))
    (js_or (row_get r (js "Período")) (VString [])).

Definition fromTabularRows (rows : list row) : list Entry := map importRow rows.

(** [handleFileUpload]: [None] stands for the early returns (no file chosen,
    or a reader result that is neither a string nor an ArrayBuffer);
    [Some rows] is the first sheet as [sheet_to_json] returned it. *)
Definition handleFileUpload (sheet : option (list row)) (s : AppState) : AppState :=
  match sheet with
  | None => s
  | Some rows =>
      mkState (fromTabularRows rows)
        (fornecedorInicial s) (valorInicial s) (fornecedorFinal s) (valorFinal s)
        (contaRazao s) (area s) (mes s) (ano s) (periodo s)
  end.

End Ingest.

(** The guard of [handleAdd] (line 111). *)
Definition handleAdd_accepts (s : AppState) : bool :=
  negb (is_empty (fornecedorInicial s)) && field_truthy (valorInicial s)
  && negb (is_empty (fornecedorFinal s)) && field_truthy (valorFinal s).

(** The entry [handleAdd] builds (lines 114-122). *)
Definition newEntry (s : AppState) : Entry :=
  Entry.mk
    (VString (fornecedorInicial s ++ js " → " ++ fornecedorFinal s))
    (field_Number (valorInicial s))
    (field_Number (valorFinal s))
    (VString (contaRazao s))
    (VString (area s))
    (VString (if negb (is_empty (mes s)) && negb (is_empty (ano s))
              then mes s ++ js "/" ++ ano s else []))
    (VString (periodo s)).

Definition handleAdd (s : AppState) : AppState :=
  if handleAdd_accepts s
  then mkState (data s ++ [newEntry s]) [] None [] None [] [] [] [] []
  else s.

(* ================================================================== *)
(** ** Spreadsheet serializer *)

(** The row mapping of [exportToExcel] (lines 175-183); mapped over [data]
    it gives [formattedData], the specification's [toTabularRows]. *)
Definition exportRow (item : Entry) : row :=
  [ (js "Fornecedor", Entry.fornecedor item);
    (js "Valor Cotado (R$)", VNumber (Entry.valorInicial item));
    (js "Valor Final (R$)", VNumber (Entry.valorFinal item));
    (js "Conta Razão", js_or (Entry.contaRazao item) (VString []));
    (js "Área", js_or (Entry.area item) (VString []));
    (js "Mês/Ano", js_or (Entry.mesAno item) (VString []));
    (js "Período", js_or (Entry.periodo item) (VString [])) ].

Definition toTabularRows (entries : list Entry) : list row := map exportRow entries.

(* ================================================================== *)
(** ** The record set as a transition system *)

(** [Array.prototype.slice(start, end)]. *)
Definition slice {A : Type} (l : list A) (start stop : Z) : list A :=
  let len := Z.of_nat (length l) in
  let k := if (start <? 0)%Z then Z.max (len + start) 0 else Z.min start len in
  let final := if (stop <? 0)%Z then Z.max (len + stop) 0 else Z.min stop len in
  firstn (Z.to_nat (Z.max (final - k) 0)) (skipn (Z.to_nat k) l).

Definition setData (d : list Entry) (s : AppState) : AppState :=
  mkState d (fornecedorInicial s) (valorInicial s) (fornecedorFinal s)
    (valorFinal s) (contaRazao s) (area s) (mes s) (ano s) (periodo s).

(** The handlers wired in the JSX (lines 312-367) and the [Enter] listener
    (lines 138-144). The two export buttons read the state and leave it as it
    is. *)
Inductive event : Type :=
| ChangeFornecedorInicial (v : jsstring)
| ChangeValorInicial (v : jsstring)
| ChangeFornecedorFinal (v : jsstring)
| ChangeValorFinal (v : jsstring)
| ChangeContaRazao (v : jsstring)
| ChangeArea (v : jsstring)
| ChangeMes (v : jsstring)
| ChangeAno (v : jsstring)
| ChangePeriodo (v : jsstring)
| Adicionar
| KeyEnter
| LimparTudo
| LimparUltimo
| FileChosen (sheet : option (list row))
| ExportarExcel
| ExportarPDF.

Section Transitions.
Variable R : Runtime.

Definition step (ev : event) (s : AppState) : AppState :=
  match ev with
  | ChangeFornecedorInicial v =>
      mkState (data s) v (valorInicial s) (fornecedorFinal s) (valorFinal s)
        (contaRazao s) (area s) (mes s) (ano s) (periodo s)
  | ChangeValorInicial v =>
      mkState (data s) (fornecedorInicial s) (Some (StringToNumber R v))
        (fornecedorFinal s) (valorFinal s)
        (contaRazao s) (area s) (mes s) (ano s) (periodo s)
  | ChangeFornecedorFinal v =>
      mkState (data s) (fornecedorInicial s) (valorInicial s) v (valorFinal s)
        (contaRazao s) (area s) (mes s) (ano s) (periodo s)
  | ChangeValorFinal v =>
      mkState (data s) (fornecedorInicial s) (valorInicial s)
        (fornecedorFinal s) (Some (StringToNumber R v))
        (contaRazao s) (area s) (mes s) (ano s) (periodo s)
  | ChangeContaRazao v =>
      mkState (data s) (fornecedorInicial s) (valorInicial s)
        (fornecedorFinal s) (valorFinal s) v (area s) (mes s) (ano s) (periodo s)
  | ChangeArea v =>
      mkState (data s) (fornecedorInicial s) (valorInicial s)
        (fornecedorFinal s) (valorFinal s) (contaRazao s) v (mes s) (ano s) (periodo s)
  | ChangeMes v =>
      mkState (data s) (fornecedorInicial s) (valorInicial s)
        (fornecedorFinal s) (valorFinal s) (contaRazao s) (area s) v (ano s) (periodo s)
  | ChangeAno v =>
      mkState (data s) (fornecedorInicial s) (valorInicial s)
        (fornecedorFinal s) (valorFinal s) (contaRazao s) (area s) (mes s) v (periodo s)
  | ChangePeriodo v =>
      mkState (data s) (fornecedorInicial s) (valorInicial s)
        (fornecedorFinal s) (valorFinal s) (contaRazao s) (area s) (mes s) (ano s) v
  | Adicionar | KeyEnter => handleAdd s
  | LimparTudo => setData [] s
  | LimparUltimo => setData (slice (data s) 0 (-1)) s
  | FileChosen sheet => handleFileUpload R sheet s
  | ExportarExcel | ExportarPDF => s
  end.

Definition run (evs : list event) (s : AppState) : AppState :=
  fold_left (fun st ev => step ev st) evs s.

(** The states the component can be in. *)
Inductive reachable : AppState -> Prop :=
| reach_initial : reachable initial
| reach_step ev s : reachable s -> reachable (step ev s).

End Transitions.

(* ================================================================== *)
(** ** Aggregation *)

(** The own properties of a JavaScript object used as a dictionary, in the
    order [Object.keys] enumerates them: array-index keys first in ascending
    numeric order, then the other keys in creation order. What the object
    inherits is in [Proto]. *)
Module Dict.

Definition is_digit (c : codeunit) : bool := (48 <=? c)%N && (c <=? 57)%N.

Definition digits_value (s : jsstring) : N :=
  fold_left (fun acc c => (acc * 10 + (c - 48))%N) s 0%N.

(** The array index a key denotes, if it is the canonical decimal form of an
    integer below [2^32 - 1]. *)
Definition array_index (k : jsstring) : option N :=
  match k with
  | [] => None
  | c :: rest =>
      if forallb is_digit k && ((negb (c =? 48)%N) || is_empty rest)
         && (length k <=? 10)%nat && (digits_value k <=? 4294967294)%N
      then Some (digits_value k) else None
  end.

Section Store.
Variable A : Type.

Definition t := list (jsstring * A).

Fixpoint get (o : t) (k : jsstring) : option A :=
  match o with
  | [] => None
  | (k', v) :: o' => if Str.eqb k' k then Some v else get o' k
  end.

Fixpoint update (o : t) (k : jsstring) (v : A) : t :=
  match o with
  | [] => []
  | (k', v') :: o' =>
      if Str.eqb k' k then (k', v) :: o' else (k', v') :: update o' k v
  end.

(** Where a new array-index key goes: after the smaller indices. *)
Fixpoint insert_index (i : N) (k : jsstring) (v : A) (o : t) : t :=
  match o with
  | [] => [(k, v)]
  | (k', v') :: o' =>
      match array_index k' with
      | Some j => if (i <? j)%N then (k, v) :: o
                  else (k', v') :: insert_index i k v o'
      | None => (k, v) :: o
      end
  end.

(** Writing the own property [k]: its value is replaced where it stands, or
    the property is created. *)
Definition set (o : t) (k : jsstring) (v : A) : t :=
  match get o k with
  | Some _ => update o k v
  | None =>
      match array_index k with
      | Some i => insert_index i k v o
      | None => o ++ [(k, v)]
      end
  end.

(** A change inside the object held by the own property [k]; nothing happens
    to [o] when it has no such property. *)
Fixpoint modify (o : t) (k : jsstring) (f : A -> A) : t :=
  match o with
  | [] => []
  | (k', v') :: o' =>
      if Str.eqb k' k then (k', f v') :: o' else (k', v') :: modify o' k f
  end.

(** [Object.keys(o)] *)
Definition keys (o : t) : list jsstring := map fst o.

(** [Object.entries(o).map(([_, v]) => v)] *)
Definition values (o : t) : list A := map snd o.

End Store.

End Dict.

(** What an object literal inherits. [Object.prototype], as the engine
    creates it, holds eleven functions and the accessor [__proto__], whose
    getter returns [Object.prototype] itself and whose setter ignores a value
    that is neither an object nor [null]. *)
Module Proto.

Definition methods : list jsstring :=
  [ js "constructor"; js "hasOwnProperty"; js "isPrototypeOf";
    js "propertyIsEnumerable"; js "toLocaleString"; js "toString";
    js "valueOf"; js "__defineGetter__"; js "__defineSetter__";
    js "__lookupGetter__"; js "__lookupSetter__" ].

Definition is_method (k : jsstring) : bool := existsb (Str.eqb k) methods.

Definition is_accessor (k : jsstring) : bool := Str.eqb k (js "__proto__").

(** [k in {}] *)
Definition inherits (k : jsstring) : bool := is_accessor k || is_method k.

(** The name of the function the method [k] holds: [constructor] is
    [Object]. *)
Definition function_name (k : jsstring) : jsstring :=
  if Str.eqb k (js "constructor") then js "Object" else k.

End Proto.

(** What reading a property gives: a primitive value, or one of the objects
    inherited from [Object.prototype], of which only the string that
    ToPrimitive makes of it is used. *)
Inductive operand : Type :=
| Prim (v : value)
| Inherited (text : jsstring).

Definition ToPrimitive (x : operand) : value :=
  match x with
  | Prim v => v
  | Inherited text => VString text
  end.

(** [x || 0]: an object is truthy. *)
Definition or_zero (x : operand) : operand :=
  match x with
  | Prim v => Prim (js_or v (VNumber zero))
  | Inherited _ => x
  end.

Section Aggregate.
Variable R : Runtime.
Variable entries : list Entry.

Local Open Scope float_scope.

(** Lines 147-149. *)
Definition totalInicial : number :=
  fold_left (fun acc curr => acc + Entry.valorInicial curr) entries 0.

Definition totalFinal : number :=
  fold_left (fun acc curr => acc + Entry.valorFinal curr) entries 0.

Definition economia : number := totalInicial - totalFinal.

Definition economiaGeral : number := totalInicial - totalFinal.

Definition economiaGeralPerc : number :=
  if gt totalInicial 0 then (economiaGeral / totalInicial) * 100 else 0.

(** The property key [item.contaRazao || "Não informada"]. *)
Definition contaKey (item : Entry) : jsstring :=
  ToString R (js_or (Entry.contaRazao item) (VString (js "Não informada"))).

(** [map[k]]: an own property, else a member of [Object.prototype], else
    [undefined]. *)
Definition read (map : Dict.t value) (k : jsstring) : operand :=
  match Dict.get map k with
  | Some v => Prim v
  | None =>
      if Proto.is_accessor k then Inherited (js "[object Object]")
      else if Proto.is_method k
           then Inherited (functionToString R (Proto.function_name k))
           else Prim VUndefined
  end.

(** [map[k] = v] for a primitive [v]: the setter of [__proto__] ignores it;
    any other key becomes, or stays, an own property. *)
Definition write (map : Dict.t value) (k : jsstring) (v : value) : Dict.t value :=
  if Proto.is_accessor k then map else Dict.set map k v.

(** [x + n] for a number [n]: a concatenation when [x] is, or converts to, a
    string. *)
Definition plus (x : operand) (n : number) : value :=
  match ToPrimitive x with
  | VString s => VString (s ++ NumberToString R n)
  | v => VNumber (ToNumber R v + n)
  end.

(** [x > y]: two strings are compared by code units, anything else as
    numbers. *)
Definition greater (x y : operand) : bool :=
  match ToPrimitive x, ToPrimitive y with
  | VString s, VString t => Str.less t s
  | v, w => gt (ToNumber R v) (ToNumber R w)
  end.

(** Lines 155-159. *)
Definition contaMaisUsada : Dict.t value :=
  fold_left
    (fun map item =>
       write map (contaKey item)
         (plus (or_zero (read map (contaKey item))) (Entry.valorFinal item)))
    entries [].

(** [contaMaisUsada[a] > contaMaisUsada[b]] *)
Definition sum_gt (map : Dict.t value) (a b : jsstring) : bool :=
  greater (read map a) (read map b).

(** Lines 162-165. *)
Definition contaTop : jsstring :=
  fold_left
    (fun a b => if sum_gt contaMaisUsada a b then a else b)
    (Dict.keys contaMaisUsada) (js "Nenhuma").

(** Line 168. *)
Definition valorContaTop : operand := or_zero (read contaMaisUsada contaTop).

End Aggregate.

(* ================================================================== *)
(** ** Text normaliser *)

Module Chars.
Local Open Scope N_scope.

Definition between (lo hi c : codeunit) : bool := (lo <=? c)%N && (c <=? hi)%N.

(** [\s] of a regular expression without the [u] flag, which is also the set
    [String.prototype.trim] strips: WhiteSpace and LineTerminator. *)
Definition is_space (c : codeunit) : bool :=
  between 9 13 c || (c =? 32)%N || (c =? 160)%N || (c =? 5760)%N
  || between 8192 8202 c || (c =? 8232)%N || (c =? 8233)%N || (c =? 8239)%N
  || (c =? 8287)%N || (c =? 12288)%N || (c =? 65279)%N.

(** The class of combining diacritical marks, U+0300 to U+036F. *)
Definition is_combining (c : codeunit) : bool := between 768 879 c.

(** The complement of [[^a-zA-Z0-9À-ÿ,.!?()\-\s]]. *)
Definition is_allowed (c : codeunit) : bool :=
  between 97 122 c || between 65 90 c || between 48 57 c || between 192 255 c
  || (c =? 44)%N || (c =? 46)%N || (c =? 33)%N || (c =? 63)%N
  || (c =? 40)%N || (c =? 41)%N || (c =? 45)%N || is_space c.

(** The canonical decompositions of the Latin-1 letters (UnicodeData, block
    U+00C0-U+00FF): base letter and combining mark. The capital and the small
    letter share the mark; [Æ Ð × Ø Þ ß] and their small forms have none. *)
Definition latin1_mark (c : codeunit) : option (codeunit * codeunit) :=
  if between 192 197 c then
    Some (65, nth (N.to_nat (c - 192)) [768; 769; 770; 771; 776; 778] 0)%N
  else if (c =? 199)%N then Some (67, 807)%N
  else if between 200 203 c then
    Some (69, nth (N.to_nat (c - 200)) [768; 769; 770; 776] 0)%N
  else if between 204 207 c then
    Some (73, nth (N.to_nat (c - 204)) [768; 769; 770; 776] 0)%N
  else if (c =? 209)%N then Some (78, 771)%N
  else if between 210 214 c then
    Some (79, nth (N.to_nat (c - 210)) [768; 769; 770; 771; 776] 0)%N
  else if between 217 220 c then
    Some (85, nth (N.to_nat (c - 217)) [768; 769; 770; 776] 0)%N
  else if (c =? 221)%N then Some (89, 769)%N
  else None.

Definition latin1_decomposition (c : codeunit) : option (codeunit * codeunit) :=
  if between 192 222 c then latin1_mark c
  else if (c =? 255)%N then Some (121, 776)%N
  else if between 224 254 c then
    match latin1_mark (c - 32) with
    | Some (b, m) => Some (b + 32, m)%N
    | None => None
    end
  else None.

End Chars.

Module Normalizer.
Import Chars.

(** [.replace(/\s+/g, " ")]: every maximal run of white space becomes one
    space. [in_run] says the previous code unit was white space. *)
Fixpoint collapse (in_run : bool) (s : jsstring) : jsstring :=
  match s with
  | [] => []
  | c :: t =>
      if is_space c
      then (if in_run then collapse true t else 32%N :: collapse true t)
      else c :: collapse false t
  end.

Fixpoint trimStart (s : jsstring) : jsstring :=
  match s with
  | [] => []
  | c :: t => if is_space c then trimStart t else s
  end.

Definition trimEnd (s : jsstring) : jsstring := rev (trimStart (rev s)).

(** [String.prototype.trim] *)
Definition trim (s : jsstring) : jsstring := trimEnd (trimStart s).

End Normalizer.

(** [limparTexto] (lines 62-69), on a string. *)
Definition limparTexto (R : Runtime) (texto : jsstring) : jsstring :=
  Normalizer.trim
    (Normalizer.collapse false
       (filter Chars.is_allowed
          (filter (fun c => negb (Chars.is_combining c))
             (normalizeNFD R texto)))).

(* ================================================================== *)
(** ** Document composer *)

(** An export either completes or is aborted by an uncaught [TypeError]. *)
Inductive result (A : Type) : Type :=
| Ok (a : A)
| TypeError.
Arguments Ok {A} a.
Arguments TypeError {A}.

Definition bind {A B : Type} (m : result A) (f : A -> result B) : result B :=
  match m with
  | Ok a => f a
  | TypeError => TypeError
  end.

Notation "x <- m ;; k" := (bind m (fun x => k))
  (at level 61, m at next level, right associativity).

(** A call [limparTexto(v)]: only a string has a [normalize] method, so any
    other value raises "texto.normalize is not a function". *)
Definition call_limparTexto (R : Runtime) (v : value) : result jsstring :=
  match v with
  | VString s => Ok (limparTexto R s)
  | _ => TypeError
  end.

(** [imgProps] of a rendered chart; a chart whose [ref.current] is null is
    [None]. Rasterising a chart is the work of [html-to-image]: a chart that
    is present is taken to yield its image. *)
Record image : Type := { img_width : number; img_height : number }.

(** What is drawn. Text ordinates only take small integer values (10, 20 and
    [20 + 7 i + 5 j]), which binary64 represents exactly, so they are kept in
    [Z]; image ordinates depend on the aspect ratios and stay numbers. *)
Inductive prim : Type :=
| Text (page : nat) (s : jsstring) (centered : bool) (y : Z)
| Image (page : nat) (x y w h : number).

Record layout : Type := mkLayout {
  cur_page : nat;
  cur_y : Z;
  placed : list prim
}.

Record document : Type := mkDocument {
  doc_pages : nat;
  doc_prims : list prim
}.

Definition top_margin : Z := 20.
Definition bottom_margin : Z := 280.
Definition lineHeight : Z := 7.

Section Composer.
Variable R : Runtime.

Local Open Scope float_scope.

(** [addImage] (lines 209-221) on the cover page; [y] is the cursor. *)
Definition addImage (ref : option image) (st : number * list prim)
  : number * list prim :=
  match ref with
  | Some imgProps =>
      let y := fst st in
      let pdfWidth := 180 in
      let pdfHeight := (img_height imgProps * pdfWidth) / img_width imgProps in
      (y + (pdfHeight + 10), snd st ++ [Image 1 15 y pdfWidth pdfHeight])
  | None => st
  end.

Local Close Scope float_scope.
Local Open Scope Z_scope.

(** The body of [lines.forEach] (lines 257-264 and 288-295). *)
Definition placeLine (st : layout) (l : jsstring) : layout :=
  let st1 :=
    if bottom_margin <? cur_y st
    then mkLayout (S (cur_page st)) top_margin (placed st)
    else st in
  mkLayout (cur_page st1) (cur_y st1 + lineHeight)
    (placed st1 ++ [Text (cur_page st1) l false (cur_y st1)]).

(** The body of [texto.forEach] / [consolidado.forEach]. *)
Definition placeFragment (st : layout) (linha : jsstring) : layout :=
  fold_left placeLine (splitTextToSize R linha) st.

Definition placeFragments (st : layout) (fragments : list jsstring) : layout :=
  fold_left placeFragment fragments st.

(** [y += 5] *)
Definition gap (st : layout) : layout :=
  mkLayout (cur_page st) (cur_y st + 5) (placed st).

(** The array [texto] of one entry (lines 239-253). *)
Definition texto (item : Entry) : result (list jsstring) :=
  let economiaAbs := (Entry.valorInicial item - Entry.valorFinal item)%float in
  let economiaPerc :=
    (if gt (Entry.valorInicial item) 0
     then (economiaAbs / Entry.valorInicial item) * 100 else 0)%float in
  fornecedor <- call_limparTexto R (Entry.fornecedor item) ;;
  area <- call_limparTexto R
            (js_or (Entry.area item) (VString (js "não informada"))) ;;
  conta <- call_limparTexto R
             (js_or (Entry.contaRazao item) (VString (js "não informada"))) ;;
  Ok [ js "Analisou-se a negociação referente a " ++ fornecedor ++ js ".";
       js "Na área " ++ area ++ js ", vinculada à conta " ++ conta ++ js ",";
       js "em "
         ++ ToString R (js_or (Entry.mesAno item)
                          (VString (js "período não informado")))
         ++ js ".";
       js "O valor inicialmente cotado foi de "
         ++ toLocaleStringBRL R (Entry.valorInicial item)
         ++ js ", enquanto o valor final ficou em "
         ++ toLocaleStringBRL R (Entry.valorFinal item)
         ++ js ", gerando uma economia de "
         ++ toLocaleStringBRL R economiaAbs
         ++ js " (" ++ toFixed2 R economiaPerc ++ js "%)." ].

(** [data.forEach] (lines 238-268). *)
Fixpoint narrative (items : list Entry) (st : layout) : result layout :=
  match items with
  | [] => Ok st
  | item :: rest =>
      t <- texto item ;;
      narrative rest (gap (placeFragments st t))
  end.

(** The array [consolidado] (lines 274-283). *)
Definition consolidado (entries : list Entry) : list jsstring :=
  [ js "No consolidado geral, o valor total cotado foi de "
      ++ toLocaleStringBRL R (totalInicial entries)
      ++ js ", enquanto o valor final negociado foi de "
      ++ toLocaleStringBRL R (totalFinal entries) ++ js ".";
    js "Esse resultado representou uma economia absoluta de "
      ++ toLocaleStringBRL R (economiaGeral entries)
      ++ js ", equivalente a " ++ toFixed2 R (economiaGeralPerc entries)
      ++ js "%. A conta mais utilizada foi " ++ contaTop R entries ++ js "." ].

(** The cover page: title and charts (lines 199-226). *)
Definition cover (pieRef barRef contaRef : option image) : list prim :=
  let y := (10 + 10)%float in
  snd (addImage contaRef
         (addImage barRef
            (addImage pieRef
               (y, [Text 1 (js "Relatório de Negociações") true 10])))).

(** The cursor after the forced page break and the section title
    (lines 229-235). *)
Definition analysisStart (before : list prim) : layout :=
  mkLayout 2 (top_margin + 10)
    (before ++ [Text 2 (js "Análise do Relatório") true top_margin]).

(** [exportToPDF] (lines 195-300): the pages handed to [pdf.save]. *)
Definition exportToPDF (pieRef barRef contaRef : option image)
    (entries : list Entry) : result document :=
  st <- narrative entries (analysisStart (cover pieRef barRef contaRef)) ;;
  let final := placeFragments (gap st) (consolidado entries) in
  Ok (mkDocument (cur_page final) (placed final)).

End Composer.

(* ================================================================== *)
(** ** Notions used in the statements *)

(** *** Aggregation *)

(** Keys in the order of their first occurrence. *)
Definition first_seen (ks : list jsstring) : list jsstring :=
  fold_left (fun acc k => if existsb (Str.eqb k) acc then acc else acc ++ [k]) ks [].

(** *** Record set *)

Definition numbers_not_nan (e : Entry) : Prop :=
  PrimFloat.is_nan (Entry.valorInicial e) = false
  /\ PrimFloat.is_nan (Entry.valorFinal e) = false.

(** A value on which [v || ""] has no effect, and an entry on which the
    defaulting of the import has none. *)
Definition text_settled (v : value) : Prop := js_or v (VString []) = v.

Definition entry_settled (e : Entry) : Prop :=
  text_settled (Entry.fornecedor e)
  /\ or_else (Entry.valorInicial e) zero = Entry.valorInicial e
  /\ or_else (Entry.valorFinal e) zero = Entry.valorFinal e
  /\ text_settled (Entry.contaRazao e)
  /\ text_settled (Entry.area e)
  /\ text_settled (Entry.mesAno e)
  /\ text_settled (Entry.periodo e).

(** A change of the record list that is an append of one entry, a drop of all
    entries or a drop of the last one (or no change at all). *)
Definition append_or_truncate (d d' : list Entry) : Prop :=
  d' = d \/ (exists e, d' = d ++ [e]) \/ d' = [] \/ d' = removelast d.

(** *** Normalised text *)

(** No two adjacent white-space code units. *)
Fixpoint no_space_runs (s : jsstring) : bool :=
  match s with
  | a :: (b :: _) as t => negb (Chars.is_space a && Chars.is_space b) && no_space_runs t
  | _ => true
  end.

(** The first code unit, if any, is not white space. *)
Definition starts_clean (s : jsstring) : bool :=
  match s with
  | c :: _ => negb (Chars.is_space c)
  | [] => true
  end.

Definition ends_clean (s : jsstring) : bool := starts_clean (rev s).

Definition visible (c : codeunit) : bool := negb (Chars.is_space c).

(** The words of a text, its maximal runs of code units that are not white
    space; [cur] is the word being read. *)
Fixpoint split_words (cur : jsstring) (s : jsstring) : list jsstring :=
  match s with
  | [] => match cur with [] => [] | _ => [cur] end
  | c :: t =>
      if Chars.is_space c
      then match cur with
           | [] => split_words [] t
           | _ => cur :: split_words [] t
           end
      else split_words (cur ++ [c]) t
  end.

Definition words (s : jsstring) : list jsstring := split_words [] s.

(** Words joined by single spaces. *)
Definition unwords (ws : list jsstring) : jsstring :=
  match ws with
  | [] => []
  | w :: rest => w ++ flat_map (fun w' => 32%N :: w') rest
  end.

(** What [limparTexto] keeps of a decomposed text before it deals with white
    space: the code units of its class that are not combining marks. *)
Definition kept (s : jsstring) : jsstring :=
  filter Chars.is_allowed (filter (fun c => negb (Chars.is_combining c)) s).

(** The allow-list as the specification words it, read widely: letters (the
    ASCII ones and the Latin letters of U+00C0-U+024F, a range in which
    U+00D7 and U+00F7 are signs and not letters), digits, the punctuation
    [, . ! ? ( ) -] and white space. *)
Definition listed (c : codeunit) : bool :=
  (Chars.between 97 122 c || Chars.between 65 90 c
   || (Chars.between 192 591 c && negb (c =? 215) && negb (c =? 247))
   || Chars.between 48 57 c
   || (c =? 44) || (c =? 46) || (c =? 33) || (c =? 63)
   || (c =? 40) || (c =? 41) || (c =? 45) || Chars.is_space c)%N.

(** The host's [normalize("NFD")] leaves no Latin-1 letter that has a
    canonical decomposition. *)
Definition decomposes_latin1 (R : Runtime) : Prop :=
  forall s c, In c (normalizeNFD R s) -> Chars.latin1_decomposition c = None.

(** *** Laid-out text *)

(** A body line as placed: its page, its ordinate and its text. *)
Record placed_line : Type := mkLine {
  pl_page : nat;
  pl_y : Z;
  pl_text : jsstring
}.

Definition as_prim (p : placed_line) : prim :=
  Text (pl_page p) (pl_text p) false (pl_y p).

(** [q] is the line placed right after [p]: lower on the same page, or at the
    top margin of the next page. *)
Definition follows (p q : placed_line) : Prop :=
  (pl_page q = pl_page p /\ (pl_y p + lineHeight <= pl_y q)%Z)
  \/ (pl_page q = S (pl_page p) /\ pl_y q = top_margin).

Fixpoint chain (body : list placed_line) : Prop :=
  match body with
  | p :: (q :: _) as rest => follows p q /\ chain rest
  | _ => True
  end.

(** The text section as a script: the lines to place and the gaps between
    them, in order. The export stops at the first entry whose [texto] cannot
    be built. *)
Inductive cmd : Type :=
| Line (l : jsstring)
| Gap.

Definition fragmentScript (R : Runtime) (fragments : list jsstring) : list cmd :=
  map Line (flat_map (splitTextToSize R) fragments).

Fixpoint narrativeScript (R : Runtime) (items : list Entry)
  : result (list cmd) :=
  match items with
  | [] => Ok []
  | item :: rest =>
      t <- texto R item ;;
      cs <- narrativeScript R rest ;;
      Ok (fragmentScript R t ++ Gap :: cs)
  end.

Definition bodyScript (R : Runtime) (entries : list Entry) : result (list cmd) :=
  cs <- narrativeScript R entries ;;
  Ok (cs ++ Gap :: fragmentScript R (consolidado R entries)).

Definition script_lines (cs : list cmd) : list jsstring :=
  flat_map (fun c => match c with Line l => [l] | Gap => [] end) cs.

(** Running a script from a layout. *)
Definition exec (st : layout) (cs : list cmd) : layout :=
  fold_left
    (fun st c => match c with Line l => placeLine st l | Gap => gap st end)
    cs st.

(** The ordinates the lines of a script would get from [y] on a page without
    end: 7 per line, 5 per gap. *)
Fixpoint natural (y : Z) (cs : list cmd) : list Z :=
  match cs with
  | [] => []
  | Line _ :: rest => y :: natural (y + lineHeight) rest
  | Gap :: rest => natural (y + 5) rest
  end.

(** The text pages alone, with nothing on the cover. *)
Definition textPages (R : Runtime) (entries : list Entry) : result (nat * list prim) :=
  st <- narrative R entries
          (mkLayout 2 (top_margin + 10)
             [Text 2 (js "Análise do Relatório") true top_margin]) ;;
  let final := placeFragments R (gap st) (consolidado R entries) in
  Ok (cur_page final, placed final).

(** Moving a layout behind primitives drawn earlier. *)
Definition after (pre : list prim) (st : layout) : layout :=
  mkLayout (cur_page st) (cur_y st) (pre ++ placed st).

(** A value [limparTexto] can take: a string. *)
Definition is_text (v : value) : bool :=
  match v with VString _ => true | _ => false end.

(** An entry whose narrative can be written: the supplier is a string, and the
    area and the account are strings or falsy. *)
Definition printable (e : Entry) : bool :=
  is_text (Entry.fornecedor e)
  && is_text (js_or (Entry.area e) (VString (js "não informada")))
  && is_text (js_or (Entry.contaRazao e) (VString (js "não informada"))).

(* ================================================================== *)
(** ** Concrete inputs *)

(** The Latin-1 fragment of canonical decomposition. *)
Definition nfd_latin1 (s : jsstring) : jsstring :=
  flat_map
    (fun c => match Chars.latin1_decomposition c with
              | Some (b, m) => [b; m]
              | None => [c]
              end) s.

(** Reading a short unsigned decimal numeral. *)
Definition parse_digits (s : jsstring) : number :=
  if negb (is_empty s) && forallb Dict.is_digit s
  then PrimFloat.of_uint63 (Uint63.of_Z (Z.of_N (Dict.digits_value s)))
  else NaN.

(** A small host used to instantiate statements at concrete inputs: it reads
    short unsigned decimal numerals, decomposes the Latin-1 letters, keeps
    every fragment on one line, prints every number the same way, and shows a
    built-in function as V8 does. *)
Definition sample_runtime : Runtime :=
  {| StringToNumber := parse_digits;
     NumberToString := fun _ => js "0";
     normalizeNFD := nfd_latin1;
     toLocaleStringBRL := fun _ => js "R$ 0,00";
     toFixed2 := fun _ => js "0.00";
     splitTextToSize := fun s => [s];
     functionToString := fun name => js "function " ++ name ++ js "() { [native code] }" |}.

(** An entry of category [conta] with the given quoted and final values. *)
Definition sample (conta : string) (quoted final : number) : Entry :=
  Entry.mk (VString (js "Alfa → Beta")) quoted final (VString (js conta))
    (VString (js "Loja")) (VString []) (VString []).
Arguments sample conta%_string (quoted final)%_float.

(** A form whose quoted value is the number 0. *)
Definition zero_quote_form : AppState :=
  mkState [] (js "Alfa") (Some 0%float) (js "Beta") (Some 10%float)
    [] [] [] [] [].

(** A sheet of two rows; the second has a negative quoted value and a final
    value that is not a numeral. *)
Definition two_rows : list row :=
  [ [(js "Fornecedor", VString (js "Alfa"));
     (js "Valor Cotado (R$)", VNumber 1000%float);
     (js "Valor Final (R$)", VNumber 800%float)];
    [(js "Fornecedor", VString (js "Beta"));
     (js "Valor Cotado (R$)", VNumber (-5)%float);
     (js "Valor Final (R$)", VString (js "n/d"))] ].

(** A session: the sheet is loaded, then one entry is typed in and added. *)
Definition sample_session : list event :=
  [ FileChosen (Some two_rows);
    ChangeFornecedorInicial (js "Gama"); ChangeValorInicial (js "120");
    ChangeFornecedorFinal (js "Delta"); ChangeValorFinal (js "90");
    ChangeMes (js "Março"); ChangeAno (js "2025"); Adicionar ].

(** A sheet whose account column holds a number, as a numeric cell does. *)
Definition numeric_account_sheet : list row :=
  [ [(js "Fornecedor", VString (js "Alfa"));
     (js "Valor Cotado (R$)", VNumber 1000%float);
     (js "Valor Final (R$)", VNumber 800%float);
     (js "Conta Razão", VNumber 5110507%float)] ].

(** The two entries of the specification's worked example. *)
Definition worked_example : list Entry :=
  [ Entry.mk (VString (js "A → B")) 1000%float 800%float (VString (js "X"))
      VUndefined VUndefined VUndefined;
    Entry.mk (VString (js "C → D")) 500%float 500%float (VString (js "X"))
      VUndefined VUndefined VUndefined ].

(** A report long enough to need a second text page: ten entries, forty-two
    lines. *)
Definition long_report : list Entry :=
  repeat (sample "5210401 Predial" 1000 800) 10.

(** The document [exportToPDF] builds for [long_report] on the sample host. *)
Definition long_report_doc : document :=
  Eval vm_compute in
    match exportToPDF sample_runtime None None None long_report with
    | Ok d => d
    | TypeError => mkDocument 0 []
    end.

(* ================================================================== *)
(** ** The layout invariant and proof automation *)

(** What holds of the cursor and of the body lines placed so far. *)
Record Inv (base : list prim) (st : layout) (body : list placed_line)
  : Prop := {
  inv_placed : placed st = base ++ map as_prim body;
  inv_lines : Forall (fun p => (2 <= pl_page p <= cur_page st)%nat
                               /\ (top_margin <= pl_y p <= bottom_margin)%Z) body;
  inv_chain : chain body;
  inv_page : (2 <= cur_page st)%nat;
  inv_y : (top_margin <= cur_y st)%Z;
  inv_last : body = [] \/
             exists b p, body = b ++ [p] /\ pl_page p = cur_page st
                         /\ (pl_y p + lineHeight <= cur_y st)%Z;
  inv_first_page : cur_page st = 2%nat ->
                   (top_margin + 10 + lineHeight * Z.of_nat (length body)
                    <= cur_y st)%Z
                   /\ (length body <= 36)%nat
}.


(** Case analysis on the comparisons inside [SFcompare]. *)
Ltac cmp_cases :=
  repeat match goal with
  | H : context [Z.compare ?a ?b] |- _ => destruct (Z.compare_spec a b)
  | |- context [Z.compare ?a ?b] => destruct (Z.compare_spec a b)
  | H : context [PosDef.Pos.compare_cont Eq ?a ?b] |- _ =>
      change (PosDef.Pos.compare_cont Eq a b) with (Pos.compare a b) in *;
      destruct (Pos.compare_spec a b)
  | |- context [PosDef.Pos.compare_cont Eq ?a ?b] =>
      change (PosDef.Pos.compare_cont Eq a b) with (Pos.compare a b) in *;
      destruct (Pos.compare_spec a b)
  end.

Ltac sf_order :=
  unfold SFleb, SFltb, SFeqb, SFcompare;
  intros;
  repeat match goal with s : spec_float |- _ => destruct s end;
  repeat match goal with b : bool |- _ => destruct b end;
  simpl in *; try congruence; try reflexivity;
  cmp_cases; simpl in *; subst; try congruence; try reflexivity; try lia.

(** Linear arithmetic over the page constants. *)
Ltac margins :=
  unfold top_margin, bottom_margin, lineHeight in *;
  cbn [pl_page pl_y cur_page cur_y length] in *; lia.



(* ================================================================== *)
(** ** Further notions: sessions and sheets *)

(** A cell that leaves a string in a text field: a string, or a falsy value,
    which the import replaces by the empty string. *)
Definition text_cell (v : value) : bool := is_text (js_or v (VString [])).

(** A row whose supplier, area and account cells are text cells. *)
Definition text_row (r : row) : bool :=
  text_cell (row_get r (js "Fornecedor"))
  && text_cell (row_get r (js "Área"))
  && text_cell (row_get r (js "Conta Razão")).

(** An event that is not the upload of a sheet with a non-text cell in one of
    those columns. *)
Definition text_event (ev : event) : bool :=
  match ev with
  | FileChosen (Some rows) => forallb text_row rows
  | _ => true
  end.

(** The column names of an exported row, in order. *)
Definition columns (r : row) : list jsstring := map fst r.

(* ================================================================== *)
(** ** Further notions: categories and their sums *)

(** No entry has a category spelled like a member of [Object.prototype]. *)
Definition plain_categories (R : Runtime) (entries : list Entry) : bool :=
  forallb (fun item => negb (Proto.inherits (contaKey R item))) entries.

(** The final values of the entries of category [k], in record order. *)
Definition finals (R : Runtime) (entries : list Entry) (k : jsstring)
  : list number :=
  map Entry.valorFinal
    (filter (fun item => Str.eqb (contaKey R item) k) entries).

(** Adding numbers the way [contaMaisUsada] does, [(sum || 0) + v] from
    nothing; [None] when there is nothing to add. *)
Definition runningSum (vs : list number) : option number :=
  fold_left
    (fun acc v => Some (match acc with
                        | Some x => or_else x zero
                        | None => zero
                        end + v)%float)
    vs None.

(** The array index of a key that is one. *)
Definition index_of (k : jsstring) : N :=
  match Dict.array_index k with Some i => i | None => 0%N end.

Definition is_index (k : jsstring) : bool :=
  match Dict.array_index k with Some _ => true | None => false end.

(** A numeral that does not start with the digit 0. *)
Definition no_leading_zero (s : jsstring) : Prop :=
  match s with [] => True | c :: _ => c <> 48%N end.

(** Where [Dict.insert_index] puts the key, on the keys alone. *)
Fixpoint insert_key (i : N) (k : jsstring) (ks : list jsstring) : list jsstring :=
  match ks with
  | [] => [k]
  | k' :: ks' =>
      match Dict.array_index k' with
      | Some j => if (i <? j)%N then k :: ks else k' :: insert_key i k ks'
      | None => k :: ks
      end
  end.

(** Array-index keys in strictly ascending order. *)
Fixpoint ascending (ks : list jsstring) : Prop :=
  match ks with
  | [] => True
  | k :: rest =>
      Forall (fun k' => (index_of k < index_of k')%N) rest /\ ascending rest
  end.

(** The order of [Object.keys], said from the keys in the order they were
    first written: the array indices, in ascending order, are followed by
    the other keys in the order of their first occurrence. *)
Definition keys_order (ks written : list jsstring) : Prop :=
  exists indices others,
    ks = indices ++ others
    /\ Forall (fun k => is_index k = true) indices
    /\ ascending indices
    /\ (forall k, In k indices <-> is_index k = true /\ In k written)
    /\ others = first_seen (filter (fun k => negb (is_index k)) written).

(* ================================================================== *)
(** ** Further notions: pages of a document *)

Definition prim_page (p : prim) : nat :=
  match p with
  | Text page _ _ _ => page
  | Image page _ _ _ _ => page
  end.

Definition is_image (p : prim) : bool :=
  match p with Image _ _ _ _ _ => true | Text _ _ _ _ => false end.

(** [q], drawn after [p], does not overprint it: two texts on one page are at
    least a line height apart, the later one lower. *)
Definition spaced (p q : prim) : Prop :=
  match p, q with
  | Text pg1 _ _ y1, Text pg2 _ _ y2 => pg1 = pg2 -> (y1 + lineHeight <= y2)%Z
  | _, _ => True
  end.

(** How many of the three charts are rendered. *)
Definition present (ref : option image) : nat :=
  match ref with Some _ => 1 | None => 0 end.

(** What holds of the primitives drawn so far and of the cursor, [n] lines
    into the text section. *)
Record Drawn (st : layout) (n : nat) : Prop := {
  drawn_started : (1 <= cur_page st)%nat;
  drawn_pages : Forall (fun p => (1 <= prim_page p <= cur_page st)%nat) (placed st);
  drawn_every_page : forall pg, (1 <= pg <= cur_page st)%nat ->
                     exists s c y, In (Text pg s c y) (placed st);
  drawn_count : (cur_page st <= 2 + n)%nat;
  drawn_spaced : ForallOrdPairs spaced (placed st);
  drawn_above : forall pg s c y, In (Text pg s c y) (placed st) ->
                pg = cur_page st -> (y + lineHeight <= cur_y st)%Z
}.

(** *** Text the host's normaliser leaves alone *)

(** A Latin-1 code unit without canonical decomposition. *)
Definition inert (c : codeunit) : bool :=
  (c <=? 255)%N
  && match Chars.latin1_decomposition c with None => true | Some _ => false end.

(** The host's [normalize("NFD")] returns a string of such code units as it
    is. *)
Definition nfd_fixes_inert (R : Runtime) : Prop :=
  forall s, forallb inert s = true -> normalizeNFD R s = s.

(* ================================================================== *)
(** ** The account chart *)

(** One group of bars of the chart: the object
    [{ conta, valorInicial, valorFinal }]. *)
Record Bar : Type := mkBar {
  bar_conta : value;
  bar_valorInicial : number;
  bar_valorFinal : number
}.

Section ContaChart.
Variable R : Runtime.

Local Open Scope float_scope.

(** [acc[key]] is truthy: the accumulator owns a bar of that key, or inherits
    a member of [Object.prototype] of that name. *)
Definition has_member (acc : Dict.t Bar) (k : jsstring) : bool :=
  match Dict.get acc k with
  | Some _ => true
  | None => Proto.inherits k
  end.

(** The reducer of the account chart (lines 408-414). A key the accumulator
    neither owns nor inherits gets a bar; the two additions then go into the
    object [acc[key]] gives, which is that bar, or else the inherited member,
    and then no bar changes. *)
Definition contaChartStep (acc : Dict.t Bar) (item : Entry) : Dict.t Bar :=
  let key := js_or (Entry.contaRazao item) (VString (js "Não informada")) in
  let k := ToString R key in
  let acc1 :=
    if has_member acc k then acc else Dict.set acc k (mkBar key 0 0) in
  Dict.modify acc1 k
    (fun bar => mkBar (bar_conta bar)
                  (bar_valorInicial bar + Entry.valorInicial item)
                  (bar_valorFinal bar + Entry.valorFinal item)).

(** The [data] of the account chart. *)
Definition contaChartData (entries : list Entry) : list Bar :=
  Dict.values (fold_left contaChartStep entries []).

(** The sum of one numeric field over the entries of one category, in record
    order. *)
Definition fieldSum (field : Entry -> number) (entries : list Entry)
    (k : jsstring) : number :=
  fold_left
    (fun acc item => if Str.eqb (contaKey R item) k then acc + field item else acc)
    entries 0.

End ContaChart.

(* ================================================================== *)
(** * Properties *)

(** ** Order facts about binary64 values *)

Module FloatOrder.

Lemma SF_le_total s1 s2 :
  s1 <> S754_nan -> s2 <> S754_nan -> SFltb s2 s1 = false -> SFleb s1 s2 = true.
Proof. revert s1 s2. sf_order. Qed.

Lemma SF_le_trans s1 s2 s3 :
  SFleb s1 s2 = true -> SFleb s2 s3 = true -> SFleb s1 s3 = true.
Proof. revert s1 s2 s3. sf_order. Qed.

Lemma SF_lt_le_trans s1 s2 s3 :
  SFltb s1 s2 = true -> SFleb s2 s3 = true -> SFleb s1 s3 = true.
Proof. revert s1 s2 s3. sf_order. Qed.

Lemma SF_lt_irrefl s : SFltb s s = false.
Proof. revert s. sf_order. Qed.

Lemma SF_eqb_refl s : s <> S754_nan -> SFeqb s s = true.
Proof. revert s. sf_order. Qed.

Lemma not_nan_spec (x : float) :
  PrimFloat.is_nan x = false -> Prim2SF x <> S754_nan.
Proof.
  unfold PrimFloat.is_nan. rewrite FloatAxioms.eqb_spec. intros H E.
  rewrite E in H. discriminate.
Qed.

Lemma is_nan_spec (x : float) :
  Prim2SF x <> S754_nan -> PrimFloat.is_nan x = false.
Proof.
  unfold PrimFloat.is_nan. rewrite FloatAxioms.eqb_spec. intros H.
  rewrite SF_eqb_refl; auto.
Qed.

Local Open Scope float_scope.

Lemma le_total (x y : float) :
  PrimFloat.is_nan x = false -> PrimFloat.is_nan y = false ->
  gt x y = false -> (x <=? y) = true.
Proof.
  unfold gt. rewrite ltb_spec, leb_spec. intros.
  apply SF_le_total; auto using not_nan_spec.
Qed.

Lemma le_trans (x y z : float) :
  (x <=? y) = true -> (y <=? z) = true -> (x <=? z) = true.
Proof. rewrite !leb_spec. apply SF_le_trans. Qed.

Lemma lt_le_trans (x y z : float) :
  (x <? y) = true -> (y <=? z) = true -> (x <=? z) = true.
Proof. rewrite ltb_spec, !leb_spec. apply SF_lt_le_trans. Qed.

Lemma lt_irrefl (x : float) : (x <? x) = false.
Proof. rewrite ltb_spec. apply SF_lt_irrefl. Qed.

Lemma truthy_not_nan (x : float) : truthy x = true -> PrimFloat.is_nan x = false.
Proof.
  unfold truthy. destruct (PrimFloat.is_nan x); simpl; intros; congruence.
Qed.

Lemma or_else_not_nan (x : float) : PrimFloat.is_nan (or_else x zero) = false.
Proof.
  unfold or_else. destruct (truthy x) eqn:E.
  - now apply truthy_not_nan.
  - reflexivity.
Qed.

(** [(x || 0) || 0] is [x || 0]. *)
Lemma or_else_idem (x : float) : or_else (or_else x zero) zero = or_else x zero.
Proof.
  unfold or_else. destruct (truthy x) eqn:E.
  - now rewrite E.
  - reflexivity.
Qed.

End FloatOrder.

(** ** Strings and dictionaries *)

Lemma Str_eqb_eq (a b : jsstring) : Str.eqb a b = true <-> a = b.
Proof.
  revert b. induction a as [|x a IH]; destruct b as [|y b]; simpl;
    try (split; congruence).
  rewrite andb_true_iff, N.eqb_eq, IH. split.
  - intros [-> ->]. reflexivity.
  - intros E. injection E. auto.
Qed.

Lemma Str_eqb_refl (a : jsstring) : Str.eqb a a = true.
Proof. now apply Str_eqb_eq. Qed.

Lemma Str_eqb_neq (a b : jsstring) : Str.eqb a b = false <-> a <> b.
Proof.
  rewrite <- Str_eqb_eq. destruct (Str.eqb a b); split; congruence.
Qed.

Module DictFacts.
Import Dict.

Section Store.
Variable A : Type.
Implicit Types (o : Dict.t A) (k : jsstring) (v : A).

Lemma get_app_none o1 o2 k :
  get o1 k = None -> get (o1 ++ o2) k = get o2 k.
Proof.
  induction o1 as [|[k' v'] o1 IH]; simpl; auto.
  destruct (Str.eqb k' k); [discriminate | auto].
Qed.

Lemma get_update_same o k v x :
  get o k = Some x -> get (update o k v) k = Some v.
Proof.
  induction o as [|[k' v'] o IH]; simpl; [discriminate|].
  destruct (Str.eqb k' k) eqn:E; simpl; rewrite E; auto.
Qed.

Lemma get_insert_index_same i k v o :
  get o k = None -> get (insert_index i k v o) k = Some v.
Proof.
  induction o as [|[k' v'] o IH]; simpl.
  - now rewrite Str_eqb_refl.
  - destruct (Str.eqb k' k) eqn:E; [discriminate|]. intros H.
    destruct (array_index k') as [j|]; [destruct (i <? j)%N|]; simpl;
      rewrite ?Str_eqb_refl, ?E; auto.
Qed.

Lemma get_set_same o k v : get (set o k v) k = Some v.
Proof.
  unfold set. destruct (get o k) as [x|] eqn:G.
  - eapply get_update_same; eauto.
  - destruct (array_index k).
    + now apply get_insert_index_same.
    + rewrite get_app_none by assumption. simpl. now rewrite Str_eqb_refl.
Qed.

Lemma get_Some_In o k x : get o k = Some x -> In k (keys o).
Proof.
  induction o as [|[k' v'] o IH]; simpl; [discriminate|].
  destruct (Str.eqb k' k) eqn:E; auto.
  apply Str_eqb_eq in E. auto.
Qed.

Lemma In_keys_get o k : In k (keys o) -> exists x, get o k = Some x.
Proof.
  induction o as [|[k' v'] o IH]; simpl; [tauto|].
  intros [->|H].
  - rewrite Str_eqb_refl. eauto.
  - destruct (Str.eqb k' k); eauto.
Qed.

Lemma keys_update o k v : keys (update o k v) = keys o.
Proof.
  unfold keys. induction o as [|[k' v'] o IH]; simpl; auto.
  destruct (Str.eqb k' k); simpl; auto. now rewrite IH.
Qed.

Lemma get_existsb o k :
  existsb (Str.eqb k) (keys o) = match get o k with Some _ => true | None => false end.
Proof.
  induction o as [|[k' v'] o IH]; simpl; auto.
  destruct (Str.eqb k k') eqn:E; simpl.
  - apply Str_eqb_eq in E. subst. now rewrite Str_eqb_refl.
  - destruct (Str.eqb k' k) eqn:E'; auto.
    apply Str_eqb_eq in E'. subst. rewrite Str_eqb_refl in E. discriminate.
Qed.


Lemma get_update_other o k v k' :
  k' <> k -> get (update o k v) k' = get o k'.
Proof.
  intros Hk. induction o as [|[k0 v0] o IH]; simpl; auto.
  destruct (Str.eqb k0 k) eqn:E; simpl.
  - apply Str_eqb_eq in E. subst k0.
    destruct (Str.eqb k k') eqn:E'; auto.
    apply Str_eqb_eq in E'. congruence.
  - destruct (Str.eqb k0 k'); auto.
Qed.

(** A new array-index key is put somewhere in the middle. *)
Lemma insert_index_split i k v o :
  exists l1 l2, o = l1 ++ l2 /\ insert_index i k v o = l1 ++ (k, v) :: l2.
Proof.
  induction o as [|[k0 v0] o (l1 & l2 & E & IH)]; simpl.
  - exists [], []. auto.
  - destruct (array_index k0) as [j|]; [destruct (i <? j)%N|].
    + exists [], ((k0, v0) :: o). auto.
    + exists ((k0, v0) :: l1), l2. simpl. rewrite IH. split; congruence.
    + exists [], ((k0, v0) :: o). auto.
Qed.

Lemma get_middle_other (l1 l2 : Dict.t A) k v k' :
  k' <> k -> get (l1 ++ (k, v) :: l2) k' = get (l1 ++ l2) k'.
Proof.
  intros Hk. induction l1 as [|[k0 v0] l1 IH]; simpl.
  - destruct (Str.eqb k k') eqn:E; auto.
    apply Str_eqb_eq in E. congruence.
  - destruct (Str.eqb k0 k'); auto.
Qed.

(** Writing one property leaves the others as they were. *)
Lemma get_set_other o k v k' :
  k' <> k -> get (set o k v) k' = get o k'.
Proof.
  intros Hk. unfold set. destruct (get o k).
  - now apply get_update_other.
  - destruct (array_index k) as [i|].
    + destruct (insert_index_split i k v o) as (l1 & l2 & E & ->).
      rewrite get_middle_other by assumption. now rewrite <- E.
    + replace o with (o ++ []) at 2 by apply app_nil_r.
      now apply get_middle_other.
Qed.

Lemma get_None_not_In o k : get o k = None -> ~ In k (keys o).
Proof.
  intros H Hin. apply In_keys_get in Hin. destruct Hin as (x & Hx). congruence.
Qed.

End Store.

End DictFacts.

(** ** The categories and their order *)

Lemma first_seen_snoc ks k :
  first_seen (ks ++ [k])
  = if existsb (Str.eqb k) (first_seen ks) then first_seen ks
    else first_seen ks ++ [k].
Proof. unfold first_seen. now rewrite fold_left_app. Qed.

Lemma existsb_eqb_In k ks : existsb (Str.eqb k) ks = true <-> In k ks.
Proof.
  rewrite existsb_exists. split.
  - intros (x & Hx & E). apply Str_eqb_eq in E. now subst.
  - intros H. exists k. split; auto. apply Str_eqb_refl.
Qed.

Lemma In_first_seen ks k : In k (first_seen ks) <-> In k ks.
Proof.
  induction ks as [|x ks IH] using rev_ind; [reflexivity|].
  rewrite first_seen_snoc, in_app_iff.
  destruct (existsb (Str.eqb x) (first_seen ks)) eqn:E.
  - apply existsb_eqb_In in E. rewrite IH. split; auto.
    intros [H|[<-|[]]]; auto. now apply IH.
  - rewrite in_app_iff, IH. reflexivity.
Qed.

(** Two keys that denote the same array index are the same key. *)
Module IndexFacts.
Import Dict.

Lemma digits_value_snoc s c :
  digits_value (s ++ [c]) = (digits_value s * 10 + (c - 48))%N.
Proof. unfold digits_value. now rewrite fold_left_app. Qed.

Lemma is_digit_spec c : is_digit c = true <-> (48 <= c <= 57)%N.
Proof. unfold is_digit. rewrite andb_true_iff, !N.leb_le. tauto. Qed.

Lemma no_leading_zero_init s c :
  no_leading_zero (s ++ [c]) -> no_leading_zero s.
Proof. destruct s; simpl; auto. Qed.

Lemma digits_value_pos s :
  s <> [] -> forallb is_digit s = true -> no_leading_zero s ->
  (0 < digits_value s)%N.
Proof.
  induction s as [|c t IH] using rev_ind; [congruence|].
  intros _ Hd Hz. rewrite forallb_app in Hd. apply andb_true_iff in Hd.
  destruct Hd as [Ht Hc]. simpl in Hc. rewrite andb_true_r in Hc.
  apply is_digit_spec in Hc. rewrite digits_value_snoc.
  destruct t as [|x t'].
  - simpl in *. lia.
  - assert (0 < digits_value (x :: t'))%N
      by (apply IH; [discriminate | assumption | exact Hz]).
    lia.
Qed.

Lemma digits_value_inj s : forall s',
  forallb is_digit s = true -> forallb is_digit s' = true ->
  no_leading_zero s -> no_leading_zero s' ->
  digits_value s = digits_value s' -> s = s'.
Proof.
  induction s as [|c t IH] using rev_ind; intros s' Hd Hd' Hz Hz' E.
  - destruct s' as [|x s'']; [reflexivity|].
    assert (0 < digits_value (x :: s''))%N
      by (apply digits_value_pos; [discriminate | assumption | assumption]).
    simpl in E. unfold digits_value in E at 1. simpl in E. lia.
  - destruct (@exists_last _ s') as (t' & c' & ->).
    + intros ->.
      assert (0 < digits_value (t ++ [c]))%N.
      { apply digits_value_pos; auto. destruct t; discriminate. }
      unfold digits_value in E at 2. simpl in E. lia.
    + rewrite forallb_app in Hd, Hd'.
      apply andb_true_iff in Hd, Hd'.
      destruct Hd as [Ht Hc], Hd' as [Ht' Hc']. simpl in Hc, Hc'.
      rewrite andb_true_r in Hc, Hc'.
      apply is_digit_spec in Hc, Hc'.
      rewrite !digits_value_snoc in E.
      assert (digits_value t = digits_value t' /\ c = c') as [Et ->] by lia.
      f_equal. apply IH; eauto using no_leading_zero_init.
Qed.

Lemma array_index_inj a b i :
  array_index a = Some i -> array_index b = Some i -> a = b.
Proof.
  assert (Hcanon : forall k j, array_index k = Some j ->
            forallb is_digit k = true /\ digits_value k = j
            /\ (no_leading_zero k \/ k = [48%N])).
  { intros k j. unfold array_index. destruct k as [|c rest]; [discriminate|].
    destruct (forallb is_digit (c :: rest)) eqn:D; [|discriminate].
    destruct (negb (c =? 48)%N || is_empty rest) eqn:Z; [|discriminate].
    cbn [andb].
    destruct ((length (c :: rest) <=? 10)%nat && (digits_value (c :: rest) <=? 4294967294)%N);
      [|discriminate].
    intros H. injection H as <-. split; [reflexivity|]. split; [reflexivity|].
    apply orb_true_iff in Z. destruct Z as [Z|Z].
    - left. simpl. apply negb_true_iff, N.eqb_neq in Z. exact Z.
    - destruct rest; [|discriminate].
      destruct (N.eq_dec c 48) as [->|Hc]; [now right | now left]. }
  intros Ha Hb.
  destruct (Hcanon _ _ Ha) as (Da & Va & Za).
  destruct (Hcanon _ _ Hb) as (Db & Vb & Zb).
  assert (Hne : forall k j, array_index k = Some j -> k <> [])
    by (intros k j H ->; discriminate).
  destruct Za as [Za| ->], Zb as [Zb| ->]; auto.
  - apply digits_value_inj; auto. congruence.
  - exfalso. pose proof (digits_value_pos (Hne _ _ Ha) Da Za).
    rewrite Va, <- Vb in H. unfold digits_value in H. simpl in H. lia.
  - exfalso. pose proof (digits_value_pos (Hne _ _ Hb) Db Zb).
    rewrite Vb, <- Va in H. unfold digits_value in H. simpl in H. lia.
Qed.

End IndexFacts.

Section KeyOrder.
Import Dict.
Variable A : Type.

Lemma keys_insert_index i k (v : A) o :
  keys (insert_index i k v o) = insert_key i k (keys o).
Proof.
  unfold keys. induction o as [|[k' v'] o IH]; simpl; auto.
  destruct (array_index k') as [j|]; [destruct (i <? j)%N|]; simpl; auto.
  now rewrite IH.
Qed.

Lemma ascending_In a ks :
  ascending (a :: ks) -> forall k, In k ks -> (index_of a < index_of k)%N.
Proof. intros [H _] k Hk. rewrite Forall_forall in H. auto. Qed.

(** A new index key goes among the indices, which stay in ascending order. *)
Lemma insert_key_indices i k others : forall indices,
  array_index k = Some i ->
  ~ In k indices ->
  Forall (fun k' => is_index k' = true) indices ->
  Forall (fun k' => is_index k' = false) others ->
  ascending indices ->
  exists indices',
    insert_key i k (indices ++ others) = indices' ++ others
    /\ Forall (fun k' => is_index k' = true) indices'
    /\ ascending indices'
    /\ (forall k', In k' indices' <-> k' = k \/ In k' indices).
Proof.
  intros indices Hk. assert (Hi : index_of k = i) by (unfold index_of; now rewrite Hk).
  assert (Hki : is_index k = true) by (unfold is_index; now rewrite Hk).
  induction indices as [|a rest IH]; intros Hnew Hidx Hoth Hasc.
  - exists [k]. simpl. split.
    + destruct others as [|k' others']; [reflexivity|].
      pose proof (Forall_inv Hoth) as Hk'. unfold is_index in Hk'.
      simpl. destruct (array_index k'); [discriminate|reflexivity].
    + split; [constructor; [exact Hki|constructor]|].
      split; [split; [constructor|exact I]|].
      intros k'. simpl. split; intros [H|H]; auto.
  - pose proof (Forall_inv Hidx) as Ha. pose proof (Forall_inv_tail Hidx) as Hrest.
    cbv beta in Ha.
    assert (Hasc' : ascending rest) by (destruct Hasc; assumption).
    cbn [insert_key app]. unfold is_index in Ha.
    destruct (array_index a) as [j|] eqn:Ej; [|discriminate].
    assert (Hj : index_of a = j) by (unfold index_of; now rewrite Ej).
    destruct (i <? j)%N eqn:L.
    + apply N.ltb_lt in L. exists (k :: a :: rest). split; [reflexivity|].
      split; [constructor; assumption|]. split.
      * split; [|exact Hasc]. constructor; [lia|].
        rewrite Forall_forall. intros k' Hk'.
        pose proof (@ascending_In _ _ Hasc _ Hk'). lia.
      * intros k'. simpl. split; intros [H|H]; auto.
    + apply N.ltb_ge in L.
      assert (Hji : (j < i)%N).
      { assert (j <> i); [|lia]. intros ->. apply Hnew. left.
        exact (IndexFacts.array_index_inj _ _ Ej Hk). }
      destruct (IH (fun H => Hnew (or_intror H)) Hrest Hoth Hasc')
        as (ind & E & Hind & Hasc2 & Hin).
      exists (a :: ind). rewrite E. split; [reflexivity|].
      split; [constructor; auto; unfold is_index; now rewrite Ej|]. split.
      * split; [|exact Hasc2]. rewrite Forall_forall. intros k' Hk'.
        apply Hin in Hk'. destruct Hk' as [->|Hk']; [lia|].
        exact (@ascending_In _ _ Hasc _ Hk').
      * intros k'. simpl. rewrite Hin. tauto.
Qed.

(** The order of the keys after one more key is written. *)
Lemma keys_order_set (o : Dict.t A) k (v : A) written :
  keys_order (keys o) written ->
  keys_order (keys (set o k v)) (written ++ [k]).
Proof.
  intros (indices & others & E & Hidx & Hasc & Hin & Hoth).
  assert (Hnon : Forall (fun k' => is_index k' = false) others).
  { rewrite Hoth, Forall_forall. intros k' Hk'. apply (proj1 (In_first_seen _ _)) in Hk'.
    apply filter_In in Hk'. destruct Hk' as [_ Hk'].
    now apply negb_true_iff in Hk'. }
  assert (Hks : forall k', In k' (keys o) -> In k' written).
  { intros k' Hk'. rewrite E in Hk'. apply in_app_or in Hk'.
    destruct Hk' as [Hk'|Hk'].
    - now apply Hin.
    - rewrite Hoth in Hk'. apply (proj1 (In_first_seen _ _)) in Hk'.
      apply filter_In in Hk'. tauto. }
  assert (Hf : filter (fun k' => negb (is_index k')) (written ++ [k])
               = filter (fun k' => negb (is_index k')) written
                 ++ (if negb (is_index k) then [k] else []))
    by (rewrite filter_app; reflexivity).
  unfold keys_order. rewrite Hf. clear Hf.
  unfold set. destruct (get o k) as [x|] eqn:G.
  - apply DictFacts.get_Some_In in G. rewrite DictFacts.keys_update.
    exists indices, others.
    split; [exact E|]. split; [exact Hidx|]. split; [exact Hasc|]. split.
    + intros k'. rewrite Hin, in_app_iff. split; [tauto|].
      intros [Hi [Hw|[<-|[]]]]; auto.
    + destruct (is_index k) eqn:Ek; cbn [negb].
      * now rewrite app_nil_r.
      * rewrite first_seen_snoc, <- Hoth.
        assert (Hko : In k others).
        { rewrite E in G. apply in_app_or in G. destruct G as [G|G]; auto.
          rewrite Forall_forall in Hidx. rewrite (Hidx _ G) in Ek. discriminate. }
        apply existsb_eqb_In in Hko. now rewrite Hko.
  - apply DictFacts.get_None_not_In in G.
    destruct (array_index k) as [i|] eqn:Ek.
    + rewrite keys_insert_index, E.
      assert (Hnew : ~ In k indices)
        by (intros H; apply G; rewrite E; apply in_or_app; now left).
      destruct (@insert_key_indices i k others indices Ek Hnew Hidx Hnon Hasc)
        as (ind & -> & Hind & Hasc2 & Hin2).
      assert (Hki : is_index k = true) by (unfold is_index; now rewrite Ek).
      exists ind, others. rewrite Hki. cbn [negb]. rewrite app_nil_r.
      split; [reflexivity|]. split; [exact Hind|]. split; [exact Hasc2|].
      split; [|exact Hoth].
      intros k'. rewrite Hin2, Hin, in_app_iff. split.
      * intros [->|[? ?]]; [split; auto; right; now left | tauto].
      * intros [Hi [Hw|[<-|[]]]]; auto.
    + assert (Hki : is_index k = false) by (unfold is_index; now rewrite Ek).
      unfold keys in *. rewrite map_app, E. cbn [map fst].
      exists indices, (others ++ [k]). rewrite Hki. cbn [negb].
      split; [now rewrite app_assoc|]. split; [exact Hidx|].
      split; [exact Hasc|]. split.
      * intros k'. rewrite Hin, in_app_iff. split; [tauto|].
        intros [Hi [Hw|[<-|[]]]]; auto. congruence.
      * rewrite first_seen_snoc, <- Hoth.
        destruct (existsb (Str.eqb k) others) eqn:X; auto.
        apply existsb_eqb_In in X. exfalso. apply G. rewrite E.
        apply in_or_app. now right.
Qed.

End KeyOrder.

(** ** The leading category *)

Lemma SF_lt_nan s : SFltb s S754_nan = false.
Proof. revert s. sf_order. Qed.

(** [undefined > y] is false. *)
Lemma gt_NaN (y : float) : gt NaN y = false.
Proof. unfold gt, NaN. rewrite ltb_spec. apply SF_lt_nan. Qed.

Lemma read_own R (m : Dict.t value) k v :
  Dict.get m k = Some v -> read R m k = Prim v.
Proof. unfold read. now intros ->. Qed.

Lemma inherits_false k :
  Proto.inherits k = false ->
  Proto.is_accessor k = false /\ Proto.is_method k = false.
Proof. unfold Proto.inherits. apply orb_false_iff. Qed.

Lemma read_missing R (m : Dict.t value) k :
  Dict.get m k = None -> Proto.inherits k = false -> read R m k = Prim VUndefined.
Proof.
  unfold read. intros -> H. apply inherits_false in H. destruct H as [-> ->].
  reflexivity.
Qed.

Section Selection.
Import Dict DictFacts FloatOrder.
Local Open Scope float_scope.

Variable R : Runtime.
Variable m : Dict.t value.
Hypothesis sums_numbers : forall k v, get m k = Some v -> exists x, v = VNumber x.
Hypothesis sums_ordered :
  forall k x, get m k = Some (VNumber x) -> PrimFloat.is_nan x = false.

Let pick (a b : jsstring) : jsstring := if sum_gt R m a b then a else b.

(** Folding [pick] from a leader [a] whose sum is [x]: either [a] beats every
    key strictly, or the result is the last key whose sum is maximal. *)
Lemma pick_fold ks : forall a x,
  get m a = Some (VNumber x) ->
  (forall k, In k ks -> exists y, get m k = Some (VNumber y)) ->
  (fold_left pick ks a = a /\
   forall k y, In k ks -> get m k = Some (VNumber y) -> (y <? x) = true)
  \/
  (exists pre post z,
      ks = pre ++ fold_left pick ks a :: post /\
      get m (fold_left pick ks a) = Some (VNumber z) /\
      (x <=? z) = true /\
      (forall k y, In k pre -> get m k = Some (VNumber y) -> (y <=? z) = true) /\
      (forall k y, In k post -> get m k = Some (VNumber y) -> (y <? z) = true)).
Proof.
  induction ks as [|b t IH]; intros a x Ha Hks.
  - left. split; [reflexivity | intros k y []].
  - destruct (Hks b (or_introl eq_refl)) as [yb Hb].
    assert (Ht : forall k, In k t -> exists y, get m k = Some (VNumber y))
      by (intros; apply Hks; now right).
    cbn [fold_left].
    assert (P : pick a b = if gt x yb then a else b)
      by (unfold pick, sum_gt; now rewrite (read_own R _ _ Ha), (read_own R _ _ Hb)).
    rewrite P. clear P.
    destruct (gt x yb) eqn:G.
    + destruct (IH a x Ha Ht) as [[E Hlt] | (pre & post & z & E & Hz & Hxz & Hpre & Hpost)].
      * left. split; auto. intros k y [<-|Hk] Hy; eauto.
        rewrite Hb in Hy. injection Hy as <-. exact G.
      * right. exists (b :: pre), post, z. repeat split; auto.
        -- simpl. now rewrite <- E.
        -- intros k y [<-|Hk] Hy; eauto.
           rewrite Hb in Hy. injection Hy as <-.
           eapply lt_le_trans; eauto.
    + assert (Hxb : (x <=? yb) = true) by (apply le_total; eauto).
      destruct (IH b yb Hb Ht) as [[E Hlt] | (pre & post & z & E & Hz & Hbz & Hpre & Hpost)].
      * right. exists [], t, yb. rewrite E.
        repeat split; auto; try (now intros k y []).
      * right. exists (b :: pre), post, z. repeat split; auto.
        -- simpl. now rewrite <- E.
        -- eapply le_trans; eauto.
        -- intros k y [<-|Hk] Hy; eauto.
           rewrite Hb in Hy. injection Hy as <-. exact Hbz.
Qed.

(** From a literal that names no member of [Object.prototype], such as
    ["Nenhuma"], over all the keys of [m]. *)
Lemma pick_keys (start : jsstring) :
  Proto.inherits start = false ->
  keys m <> [] ->
  exists pre post z,
    keys m = pre ++ fold_left pick (keys m) start :: post /\
    get m (fold_left pick (keys m) start) = Some (VNumber z) /\
    (forall k y, In k pre -> get m k = Some (VNumber y) -> (y <=? z) = true) /\
    (forall k y, In k post -> get m k = Some (VNumber y) -> (y <? z) = true).
Proof.
  intros Hstart Hne.
  assert (Hks : forall k, In k (keys m) -> exists y, get m k = Some (VNumber y)).
  { intros k Hk. apply In_keys_get in Hk. destruct Hk as (v & Hv).
    destruct (sums_numbers _ Hv) as (y & ->). eauto. }
  destruct (get m start) as [v|] eqn:Hs.
  - destruct (sums_numbers _ Hs) as (x & ->).
    destruct (@pick_fold (keys m) start x Hs Hks)
      as [[E Hlt] | (pre & post & z & E & Hz & _ & Hpre & Hpost)].
    + exfalso. pose proof (get_Some_In _ _ Hs) as Hin.
      specialize (Hlt _ _ Hin Hs). rewrite lt_irrefl in Hlt. discriminate.
    + exists pre, post, z. auto.
  - destruct (keys m) as [|b t] eqn:K; [congruence|].
    destruct (Hks b (or_introl eq_refl)) as [yb Hb].
    assert (Ht : forall k, In k t -> exists y, get m k = Some (VNumber y))
      by (intros; apply Hks; now right).
    cbn [fold_left].
    assert (P : pick start b = b).
    { unfold pick, sum_gt.
      rewrite (read_missing R _ _ Hs Hstart), (read_own R _ _ Hb).
      unfold greater. cbn [ToPrimitive ToNumber]. now rewrite gt_NaN. }
    rewrite P. clear P.
    destruct (@pick_fold t b yb Hb Ht)
      as [[E Hlt] | (pre & post & z & E & Hz & Hbz & Hpre & Hpost)].
    + exists [], t, yb. rewrite E.
      repeat split; auto; try (now intros k y []).
    + exists (b :: pre), post, z. repeat split; auto.
      * simpl. now rewrite <- E.
      * intros k y [<-|Hk] Hy; eauto.
        rewrite Hb in Hy. injection Hy as <-. exact Hbz.
Qed.

End Selection.

Lemma contaMaisUsada_snoc R entries item :
  contaMaisUsada R (entries ++ [item]) =
  write (contaMaisUsada R entries) (contaKey R item)
    (plus R (or_zero (read R (contaMaisUsada R entries) (contaKey R item)))
       (Entry.valorFinal item)).
Proof. unfold contaMaisUsada. now rewrite fold_left_app. Qed.

Lemma plain_categories_snoc R entries item :
  plain_categories R (entries ++ [item]) = true
  <-> plain_categories R entries = true /\ Proto.inherits (contaKey R item) = false.
Proof.
  unfold plain_categories. rewrite forallb_app. simpl.
  rewrite andb_true_r, andb_true_iff, negb_true_iff. reflexivity.
Qed.

Lemma write_plain (m : Dict.t value) k v :
  Proto.inherits k = false -> write m k v = Dict.set m k v.
Proof.
  intros H. apply inherits_false in H. unfold write. now rewrite (proj1 H).
Qed.

(** What a category that names no member of [Object.prototype] is given: the
    number [(sum || 0) + valorFinal], 0 standing for a missing sum. *)
Lemma plus_plain R (m : Dict.t value) k n :
  Proto.inherits k = false ->
  (forall v, Dict.get m k = Some v -> exists x, v = VNumber x) ->
  plus R (or_zero (read R m k)) n
  = VNumber (match Dict.get m k with
             | Some (VNumber x) => or_else x zero
             | _ => zero
             end + n)%float.
Proof.
  intros Hk Hnum. destruct (Dict.get m k) as [v|] eqn:G.
  - destruct (Hnum v eq_refl) as (x & ->).
    rewrite (read_own R _ _ G). unfold or_zero, js_or, or_else. simpl.
    destruct (truthy x); reflexivity.
  - now rewrite (read_missing R _ _ G Hk).
Qed.

(** With such categories only, every property holds a number. *)
Lemma contaMaisUsada_numbers R entries :
  plain_categories R entries = true ->
  forall k v, Dict.get (contaMaisUsada R entries) k = Some v ->
              exists x, v = VNumber x.
Proof.
  induction entries as [|item es IH] using rev_ind; intros Hp k v.
  - discriminate.
  - apply plain_categories_snoc in Hp. destruct Hp as [Hes Hk].
    rewrite contaMaisUsada_snoc, write_plain by assumption.
    rewrite (@plus_plain R _ _ (Entry.valorFinal item) Hk
               (fun v => IH Hes (contaKey R item) v)).
    destruct (Str.eqb (contaKey R item) k) eqn:E.
    + apply Str_eqb_eq in E. subst k. rewrite DictFacts.get_set_same.
      intros H. injection H as <-. eauto.
    + apply Str_eqb_neq in E.
      rewrite DictFacts.get_set_other by congruence. apply IH; auto.
Qed.









(** ** Totals and savings *)

Lemma SF_eqb_not_lt s1 s2 : SFeqb s1 s2 = true -> SFltb s2 s1 = false.
Proof. revert s1 s2. sf_order. Qed.

(** C4, as stated, fails: with a negative quoted total the percentage is 0,
    not [absoluteSavings / totalQuoted * 100]. *)
Lemma savingsPercent_negative_total :
  totalInicial [sample "X" (-5) (-3)] = (-5)%float
  /\ (totalInicial [sample "X" (-5) (-3)] =? 0)%float = false
  /\ economiaGeralPerc [sample "X" (-5) (-3)] = 0%float
  /\ (economiaGeral [sample "X" (-5) (-3)]
        / totalInicial [sample "X" (-5) (-3)] * 100 =? 0)%float = false.
Proof. repeat split; reflexivity. Qed.

(** The worked example of the specification: 1500 quoted, 1300 final, 200
    saved (13.33 %), category ["X"] leading with 1300. *)
Example worked_example_aggregate :
  totalInicial worked_example = 1500%float
  /\ totalFinal worked_example = 1300%float
  /\ economia worked_example = 200%float
  /\ economiaGeralPerc worked_example = (200 / 1500 * 100)%float
  /\ (forall R, contaTop R worked_example = js "X")
  /\ (forall R, valorContaTop R worked_example = Prim (VNumber 1300%float)).
Proof. repeat split. Qed.

(** C4 (amended). The totals are the left-to-right binary64 sums of the
    quoted and of the final values; the absolute savings are exactly their
    difference; the percentage is [savings / totalQuoted * 100] when the quoted
    total is greater than 0 and 0 otherwise (a zero, negative or [NaN]
    total), whatever the sign of the savings. *)
Theorem aggregate_totals (entries : list Entry) (item : Entry) :
  totalInicial [] = zero /\ totalFinal [] = zero
  /\ totalInicial (entries ++ [item])
     = (totalInicial entries + Entry.valorInicial item)%float
  /\ totalFinal (entries ++ [item])
     = (totalFinal entries + Entry.valorFinal item)%float
  /\ economia entries = (totalInicial entries - totalFinal entries)%float
  /\ economiaGeral entries = economia entries
  /\ economiaGeralPerc entries
     = (if (0 <? totalInicial entries)%float
        then (economia entries / totalInicial entries * 100)%float
        else zero)
  /\ ((totalInicial entries =? 0)%float = true ->
      economiaGeralPerc entries = zero).
Proof.
  repeat split; try reflexivity.
  - unfold totalInicial. now rewrite fold_left_app.
  - unfold totalFinal. now rewrite fold_left_app.
  - intros E. unfold economiaGeralPerc, gt.
    rewrite ltb_spec. rewrite FloatAxioms.eqb_spec in E.
    now rewrite (SF_eqb_not_lt _ _ E).
Qed.

(** ** Manual entry *)

Lemma is_empty_spec (s : jsstring) : is_empty s = true <-> s = [].
Proof. destruct s; simpl; split; congruence. Qed.

Lemma not_empty_spec (s : jsstring) : negb (is_empty s) = true <-> s <> [].
Proof. destruct s; simpl; split; congruence. Qed.

Lemma field_truthy_spec (v : option number) :
  field_truthy v = true <->
  exists x, v = Some x /\ PrimFloat.is_nan x = false /\ PrimFloat.is_zero x = false.
Proof.
  destruct v as [x|]; simpl.
  - unfold truthy. rewrite negb_true_iff, orb_false_iff. split.
    + intros [? ?]. eauto.
    + intros (y & E & ? & ?). injection E as <-. auto.
  - split; [discriminate | intros (x & E & _); discriminate].
Qed.

(** C2, as stated, fails: the four required fields are present and the two
    numeric fields are not the empty value, yet nothing is appended. *)
Lemma handleAdd_rejects_zero :
  fornecedorInicial zero_quote_form <> []
  /\ valorInicial zero_quote_form <> None
  /\ fornecedorFinal zero_quote_form <> []
  /\ valorFinal zero_quote_form <> None
  /\ data (handleAdd zero_quote_form) = data zero_quote_form.
Proof. repeat split; try discriminate. Qed.

(** C2 (amended). [handleAdd] appends a record if and only if the four
    required fields are truthy: both supplier names are non-empty strings and
    both numeric fields hold a number that is neither 0 nor [NaN] (the empty
    value and 0 both count as missing). In particular a missing final value
    produces no record and leaves the record list as it was. The record's
    period label is ["month/year"] when month and year are both non-empty and
    the empty string otherwise. *)
Theorem handleAdd_ingests (s : AppState) :
  let complete :=
    fornecedorInicial s <> [] /\ fornecedorFinal s <> []
    /\ (exists x, valorInicial s = Some x
                  /\ PrimFloat.is_nan x = false /\ PrimFloat.is_zero x = false)
    /\ (exists y, valorFinal s = Some y
                  /\ PrimFloat.is_nan y = false /\ PrimFloat.is_zero y = false) in
  (complete -> data (handleAdd s) = data s ++ [newEntry s])
  /\ (~ complete -> data (handleAdd s) = data s)
  /\ (valorFinal s = None -> data (handleAdd s) = data s)
  /\ (mes s <> [] -> ano s <> [] ->
      Entry.mesAno (newEntry s) = VString (mes s ++ js "/" ++ ano s))
  /\ (mes s = [] \/ ano s = [] -> Entry.mesAno (newEntry s) = VString []).
Proof.
  intros complete.
  assert (Hacc : handleAdd_accepts s = true <-> complete).
  { unfold handleAdd_accepts, complete.
    rewrite !andb_true_iff, !not_empty_spec, !field_truthy_spec. tauto. }
  unfold handleAdd.
  repeat split.
  - intros H. apply Hacc in H. now rewrite H.
  - intros H. destruct (handleAdd_accepts s) eqn:E; auto.
    exfalso. apply H, Hacc. reflexivity.
  - intros H. unfold handleAdd_accepts. rewrite H. simpl.
    now rewrite andb_false_r.
  - intros Hm Ha. unfold newEntry. simpl.
    apply not_empty_spec in Hm, Ha. now rewrite Hm, Ha.
  - intros [H|H]; unfold newEntry; simpl; rewrite H; simpl; auto.
    now rewrite andb_false_r.
Qed.

(** C10. [handleAdd] is all-or-nothing over the whole state: when the guard
    fails the state (record list and nine fields) is unchanged; when it holds,
    exactly one entry is appended after the existing ones, which keep their
    positions, and the nine fields are reset to the empty value. *)
Theorem handleAdd_atomic (s : AppState) :
  (handleAdd_accepts s = false -> handleAdd s = s)
  /\ (handleAdd_accepts s = true ->
      (exists e, data (handleAdd s) = data s ++ [e])
      /\ length (data (handleAdd s)) = S (length (data s))
      /\ (forall i, (i < length (data s))%nat ->
            nth_error (data (handleAdd s)) i = nth_error (data s) i)
      /\ fornecedorInicial (handleAdd s) = []
      /\ valorInicial (handleAdd s) = None
      /\ fornecedorFinal (handleAdd s) = []
      /\ valorFinal (handleAdd s) = None
      /\ contaRazao (handleAdd s) = []
      /\ area (handleAdd s) = []
      /\ mes (handleAdd s) = []
      /\ ano (handleAdd s) = []
      /\ periodo (handleAdd s) = []).
Proof.
  unfold handleAdd. split; intros ->; [reflexivity|]. simpl.
  repeat split.
  - eauto.
  - rewrite length_app. simpl. lia.
  - intros i Hi. now apply nth_error_app1.
Qed.

(** ** The record set *)

Lemma slice_drop_last (A : Type) (l : list A) : slice l 0 (-1) = removelast l.
Proof.
  unfold slice. simpl.
  rewrite Z.min_l by lia. simpl.
  replace (Z.to_nat (Z.max (Z.max (Z.of_nat (length l) + -1) 0 - 0) 0))
    with (Nat.pred (length l)) by lia.
  symmetry. apply removelast_firstn_len.
Qed.

(** What each event does to the record list. *)
Lemma step_data R ev s :
  data (step R ev s) =
  match ev with
  | Adicionar | KeyEnter =>
      if handleAdd_accepts s then data s ++ [newEntry s] else data s
  | LimparTudo => []
  | LimparUltimo => removelast (data s)
  | FileChosen (Some rows) => fromTabularRows R rows
  | _ => data s
  end.
Proof.
  destruct ev; simpl; try reflexivity;
    try (unfold handleAdd; destruct (handleAdd_accepts s); reflexivity).
  - apply slice_drop_last.
  - destruct sheet; reflexivity.
Qed.

Lemma reachable_run R evs : forall s, reachable R s -> reachable R (run R evs s).
Proof.
  unfold run. induction evs as [|ev evs IH]; simpl; intros s H; auto.
  apply IH. now constructor.
Qed.

Lemma Forall_removelast (A : Type) (P : A -> Prop) (l : list A) :
  Forall P l -> Forall P (removelast l).
Proof.
  induction 1 as [|x l Hx Hl IH]; simpl; auto.
  destruct l; auto.
Qed.

(** An invariant of the record list that the ingestors establish holds in
    every reachable state. *)
Lemma reachable_Forall R (P : Entry -> Prop) :
  (forall r, P (importRow R r)) ->
  (forall s, handleAdd_accepts s = true -> P (newEntry s)) ->
  forall s, reachable R s -> Forall P (data s).
Proof.
  intros Himp Hadd s H. induction H as [|ev s H IH].
  - constructor.
  - rewrite step_data.
    destruct ev; auto using Forall_removelast.
    + destruct (handleAdd_accepts s) eqn:E; auto.
      apply Forall_app. auto.
    + destruct (handleAdd_accepts s) eqn:E; auto.
      apply Forall_app. auto.
    + destruct sheet as [rows|]; auto.
      unfold fromTabularRows. apply Forall_forall. intros e He.
      apply in_map_iff in He. destruct He as (r & <- & _). apply Himp.
Qed.

Lemma truthy_or_else x : truthy x = true -> or_else x zero = x.
Proof. unfold or_else. now intros ->. Qed.

Lemma accepted_fields s :
  handleAdd_accepts s = true ->
  truthy (field_Number (valorInicial s)) = true
  /\ truthy (field_Number (valorFinal s)) = true.
Proof.
  unfold handleAdd_accepts. rewrite !andb_true_iff.
  intros [[[_ Hi] _] Hf].
  destruct (valorInicial s), (valorFinal s); simpl in *; try discriminate; auto.
Qed.

(** *** C3 *)

(** C3, as stated, fails: a numeric cell holding -5 is stored as it is, and
    so is the infinity that a host parsing numerals as ECMAScript does reads
    from the text ["Infinity"]. *)
Lemma import_keeps_negative :
  (forall R, map Entry.valorInicial (fromTabularRows R two_rows)
             = [1000; -5]%float)
  /\ (-5 <? 0)%float = true
  /\ (forall R, StringToNumber R (js "Infinity") = infinity ->
        Entry.valorFinal
          (importRow R [(js "Valor Final (R$)", VString (js "Infinity"))])
        = infinity).
Proof.
  split; [|split].
  - intros R. reflexivity.
  - reflexivity.
  - intros R H. simpl. now rewrite H.
Qed.

Lemma SF_negative_truthy s :
  SFltb s (S754_zero false) = true ->
  SFeqb s s = true /\ SFeqb s (S754_zero false) = false.
Proof. revert s. sf_order; split; sf_order. Qed.

(** A number below 0 is neither [NaN] nor 0. *)
Lemma negative_truthy (x : number) : (x <? 0)%float = true -> truthy x = true.
Proof.
  unfold truthy, PrimFloat.is_nan, PrimFloat.is_zero.
  rewrite ltb_spec, !FloatAxioms.eqb_spec.
  change (Prim2SF 0) with (S754_zero false).
  change (Prim2SF PrimFloat.zero) with (S754_zero false).
  intros H. destruct (SF_negative_truthy _ H) as [-> ->]. reflexivity.
Qed.

(** C3 (amended). The numeric fields of every entry, imported or added by
    hand, are numbers and never [NaN]. The import stores 0 for a cell whose
    numeric value is [NaN] or 0 and stores every other numeric value as it
    is; the manual ingestor only accepts two numbers that are neither [NaN]
    nor 0 and stores them as they are. Negative numbers and the infinities
    are such values: the fields can be negative or infinite. *)
Theorem numeric_fields_never_nan (R : Runtime) :
  (forall r, numbers_not_nan (importRow R r))
  /\ (forall r,
        truthy (ToNumber R (row_get r (js "Valor Cotado (R$)"))) = false ->
        Entry.valorInicial (importRow R r) = zero)
  /\ (forall r,
        truthy (ToNumber R (row_get r (js "Valor Final (R$)"))) = false ->
        Entry.valorFinal (importRow R r) = zero)
  /\ (forall r,
        truthy (ToNumber R (row_get r (js "Valor Cotado (R$)"))) = true ->
        Entry.valorInicial (importRow R r)
        = ToNumber R (row_get r (js "Valor Cotado (R$)")))
  /\ (forall r,
        truthy (ToNumber R (row_get r (js "Valor Final (R$)"))) = true ->
        Entry.valorFinal (importRow R r)
        = ToNumber R (row_get r (js "Valor Final (R$)")))
  /\ (forall s, handleAdd_accepts s = true -> numbers_not_nan (newEntry s))
  /\ (forall s, handleAdd_accepts s = true ->
        exists x y,
          valorInicial s = Some x /\ valorFinal s = Some y
          /\ truthy x = true /\ truthy y = true
          /\ Entry.valorInicial (newEntry s) = x
          /\ Entry.valorFinal (newEntry s) = y)
  /\ (forall x : number, (x <? 0)%float = true -> truthy x = true)
  /\ truthy infinity = true /\ truthy neg_infinity = true
  /\ (forall s, reachable R s -> Forall numbers_not_nan (data s)).
Proof.
  assert (Himp : forall r, numbers_not_nan (importRow R r)).
  { intros r. split; apply FloatOrder.or_else_not_nan. }
  assert (Hadd : forall s, handleAdd_accepts s = true -> numbers_not_nan (newEntry s)).
  { intros s H. destruct (accepted_fields s H).
    split; now apply FloatOrder.truthy_not_nan. }
  split; [exact Himp|].
  split; [intros r H; simpl; unfold or_else; now rewrite H|].
  split; [intros r H; simpl; unfold or_else; now rewrite H|].
  split; [intros r H; simpl; now apply truthy_or_else|].
  split; [intros r H; simpl; now apply truthy_or_else|].
  split; [exact Hadd|].
  split.
  { intros s H. destruct (accepted_fields s H) as [Hi Hf].
    unfold handleAdd_accepts in H. rewrite !andb_true_iff in H.
    destruct H as [[[_ Ti] _] Tf].
    destruct (valorInicial s) as [x|] eqn:Ex; [|discriminate].
    destruct (valorFinal s) as [y|] eqn:Ey; [|discriminate].
    exists x, y. simpl in *. rewrite Ex, Ey. simpl. auto 10. }
  split; [exact negative_truthy|].
  split; [reflexivity|]. split; [reflexivity|].
  intros s. now apply reachable_Forall.
Qed.

(** *** C8 *)

(** C8, as stated, fails: choosing a file replaces the record list by the
    rows of the sheet, here two at once. *)
Lemma import_replaces_record_set :
  ~ (exists R,
       append_or_truncate (data initial)
         (data (step R (FileChosen (Some two_rows)) initial))).
Proof.
  intros (R & [H | [(e & H) | [H | H]]]); discriminate H.
Qed.

(** C8 (amended). The record list changes in four ways only: one entry is
    appended (manual addition), the list is replaced by the imported rows
    (file upload), all entries are dropped, or the last one is dropped. Apart
    from an upload, every position that survives a transition holds the entry
    it held before: no entry is edited in place. *)
Theorem record_set_transitions (R : Runtime) (ev : event) (s : AppState) :
  (data (step R ev s) = data s
   \/ data (step R ev s) = data s ++ [newEntry s]
   \/ data (step R ev s) = []
   \/ data (step R ev s) = removelast (data s)
   \/ exists rows, ev = FileChosen (Some rows)
                   /\ data (step R ev s) = fromTabularRows R rows)
  /\ ((forall rows, ev <> FileChosen (Some rows)) ->
      forall i, (i < length (data (step R ev s)))%nat ->
                (i < length (data s))%nat ->
        nth_error (data (step R ev s)) i = nth_error (data s) i).
Proof.
  rewrite step_data. split.
  - destruct ev; auto.
    + destruct (handleAdd_accepts s); auto.
    + destruct (handleAdd_accepts s); auto.
    + destruct sheet as [rows|]; auto. do 4 right. eauto.
  - intros Hev i Hi Hs.
    destruct ev; auto.
    + destruct (handleAdd_accepts s); auto. now apply nth_error_app1.
    + destruct (handleAdd_accepts s); auto. now apply nth_error_app1.
    + simpl in Hi. lia.
    + rewrite removelast_firstn_len in *.
      rewrite nth_error_firstn.
      rewrite length_firstn in Hi.
      destruct (Nat.ltb_spec i (Nat.pred (length (data s)))); auto. lia.
    + destruct sheet as [rows|]; auto. now destruct (Hev rows).
Qed.

(** *** C5 *)

Lemma js_or_idem v : text_settled (js_or v (VString [])).
Proof.
  unfold text_settled, js_or. destruct (ToBoolean v) eqn:E.
  - now rewrite E.
  - reflexivity.
Qed.

Lemma VString_settled s : text_settled (VString s).
Proof. unfold text_settled, js_or. destruct s; reflexivity. Qed.

Lemma importRow_settled R r : entry_settled (importRow R r).
Proof.
  unfold entry_settled. simpl.
  repeat split; auto using js_or_idem, FloatOrder.or_else_idem.
Qed.

Lemma newEntry_settled s : handleAdd_accepts s = true -> entry_settled (newEntry s).
Proof.
  intros H. destruct (accepted_fields s H).
  unfold entry_settled. simpl.
  repeat split; auto using VString_settled, truthy_or_else.
Qed.

(** Exporting an entry and importing the row applies the defaulting of
    both mappings once more. *)
Lemma importRow_exportRow R e :
  importRow R (exportRow e) =
  Entry.mk (js_or (Entry.fornecedor e) (VString []))
    (or_else (Entry.valorInicial e) zero)
    (or_else (Entry.valorFinal e) zero)
    (js_or (js_or (Entry.contaRazao e) (VString [])) (VString []))
    (js_or (js_or (Entry.area e) (VString [])) (VString []))
    (js_or (js_or (Entry.mesAno e) (VString [])) (VString []))
    (js_or (js_or (Entry.periodo e) (VString [])) (VString [])).
Proof. reflexivity. Qed.

Lemma importRow_exportRow_settled R e :
  entry_settled e -> importRow R (exportRow e) = e.
Proof.
  rewrite importRow_exportRow. destruct e. unfold entry_settled, text_settled.
  simpl. intros (H1 & H2 & H3 & H4 & H5 & H6 & H7).
  now rewrite H1, H2, H3, !H4, !H5, !H6, !H7.
Qed.

(** C5. For every record set the component can hold, whether imported,
    added by hand or both, mapping it to rows with [exportToExcel]'s mapping
    and back with [handleFileUpload]'s gives the same entries: the numeric
    fields are reproduced exactly, and so are the text fields, the defaulting
    having been applied when the entries were ingested. *)
Theorem export_import_roundtrip (R : Runtime) (s : AppState)
  (Hs : reachable R s) :
  fromTabularRows R (toTabularRows (data s)) = data s.
Proof.
  assert (H : Forall entry_settled (data s)).
  { apply (@reachable_Forall R entry_settled); auto using importRow_settled, newEntry_settled. }
  unfold fromTabularRows, toTabularRows. rewrite map_map.
  induction H as [|e l He Hl IH]; simpl; [reflexivity|].
  rewrite importRow_exportRow_settled by assumption. now rewrite IH.
Qed.

Lemma export_import_roundtrip_witness :
  fromTabularRows sample_runtime
    (toTabularRows (data (run sample_runtime sample_session initial)))
  = data (run sample_runtime sample_session initial).
Proof.
  apply export_import_roundtrip. apply reachable_run. constructor.
Defined.

(** ** The text normaliser *)

Module NormalizerFacts.
Import Chars Normalizer.

Lemma collapse_In b s c :
  In c (collapse b s) -> c = 32%N \/ (In c s /\ is_space c = false).
Proof.
  revert b. induction s as [|x s IH]; simpl; intros b H; [tauto|].
  destruct (is_space x) eqn:E.
  - destruct b.
    + destruct (IH _ H) as [|[? ?]]; auto.
    + destruct H as [<-|H]; auto.
      destruct (IH _ H) as [|[? ?]]; auto.
  - destruct H as [<-|H]; auto.
    destruct (IH _ H) as [|[? ?]]; auto.
Qed.

Lemma no_space_runs_cons a b t :
  no_space_runs (a :: b :: t)
  = negb (is_space a && is_space b) && no_space_runs (b :: t).
Proof. reflexivity. Qed.

Lemma collapse_runs s :
  no_space_runs (collapse false s) = true
  /\ no_space_runs (collapse true s) = true
  /\ starts_clean (collapse true s) = true.
Proof.
  induction s as [|x s (IH1 & IH2 & IH3)]; [repeat split|].
  cbn [collapse]. destruct (is_space x) eqn:E.
  - repeat split; auto.
    destruct (collapse true s) as [|y t] eqn:C; [reflexivity|].
    rewrite no_space_runs_cons.
    cbn [starts_clean] in IH3. apply negb_true_iff in IH3.
    now rewrite IH3, andb_false_r, IH2.
  - assert (H : no_space_runs (x :: collapse false s) = true).
    { destruct (collapse false s) as [|y t] eqn:C; [reflexivity|].
      now rewrite no_space_runs_cons, E, IH1. }
    repeat split; auto. cbn [starts_clean]. now rewrite E.
Qed.

Lemma collapse_visible b s : filter visible (collapse b s) = filter visible s.
Proof.
  revert b. induction s as [|x s IH]; simpl; intros b; auto.
  unfold visible at 2. destruct (is_space x) eqn:E; simpl.
  - destruct b; simpl; rewrite ?IH; auto.
  - unfold visible at 1. rewrite E. simpl. now rewrite IH.
Qed.

(** [trimStart] keeps a suffix. *)
Lemma trimStart_suffix s : exists u, s = u ++ trimStart s /\ forallb is_space u = true.
Proof.
  induction s as [|x s (u & E & Hu)]; simpl.
  - exists []. auto.
  - destruct (is_space x) eqn:Ex.
    + exists (x :: u). simpl. rewrite Ex, Hu. split; auto. now f_equal.
    + exists []. auto.
Qed.

Lemma trimStart_clean s : starts_clean (trimStart s) = true.
Proof.
  induction s as [|x s IH]; simpl; auto.
  destruct (is_space x) eqn:E; auto. simpl. now rewrite E.
Qed.

(** [trimEnd] keeps a prefix. *)
Lemma trimEnd_prefix s : exists u, s = trimEnd s ++ u /\ forallb is_space u = true.
Proof.
  unfold trimEnd. destruct (trimStart_suffix (rev s)) as (u & E & Hu).
  exists (rev u). split.
  - rewrite <- rev_app_distr, <- E. now rewrite rev_involutive.
  - rewrite forallb_forall in *. intros c Hc. apply Hu. now apply in_rev.
Qed.

Lemma no_space_runs_suffix u s :
  no_space_runs (u ++ s) = true -> no_space_runs s = true.
Proof.
  induction u as [|a u IH]; simpl; auto.
  destruct (u ++ s) eqn:E; intros H.
  - destruct u; [simpl in E; now subst | discriminate].
  - apply andb_true_iff in H. tauto.
Qed.

Lemma no_space_runs_prefix s u :
  no_space_runs (s ++ u) = true -> no_space_runs s = true.
Proof.
  induction s as [|a s IH]; simpl; auto.
  destruct s as [|b s]; auto. simpl in *.
  rewrite !andb_true_iff. intros [? ?]. auto.
Qed.

Lemma filter_spaces u : forallb is_space u = true -> filter visible u = [].
Proof.
  induction u as [|x u IH]; simpl; auto.
  rewrite andb_true_iff. intros [Hx Hu]. unfold visible at 1. rewrite Hx. auto.
Qed.

Lemma trim_spec s :
  exists u v, s = u ++ trim s ++ v
              /\ forallb is_space u = true /\ forallb is_space v = true.
Proof.
  unfold trim.
  destruct (trimStart_suffix s) as (u & E & Hu).
  destruct (trimEnd_prefix (trimStart s)) as (v & E' & Hv).
  exists u, v. rewrite <- E', <- E. auto.
Qed.

Lemma trim_starts_clean s : starts_clean (trim s) = true.
Proof.
  unfold trim.
  destruct (trimEnd_prefix (trimStart s)) as (v & E & Hv).
  pose proof (trimStart_clean s) as H. rewrite E in H.
  destruct (trimEnd (trimStart s)); auto.
Qed.

Lemma trim_ends_clean s : ends_clean (trim s) = true.
Proof.
  unfold ends_clean, trim, trimEnd. rewrite rev_involutive.
  apply trimStart_clean.
Qed.

End NormalizerFacts.

(** ** Words *)

Module WordFacts.
Import Chars Normalizer.

Lemma split_words_collapse s :
  (forall cur, split_words cur (collapse false s) = split_words cur s)
  /\ split_words [] (collapse true s) = split_words [] s.
Proof.
  induction s as [|c t [IH1 IH2]]; [split; reflexivity|].
  cbn [collapse split_words]. destruct (is_space c) eqn:E.
  - split; [|exact IH2].
    intros cur. cbn [split_words].
    change (is_space 32%N) with true. cbv iota. now rewrite IH2.
  - split.
    + intros cur. cbn [split_words]. rewrite E. apply IH1.
    + cbn [split_words]. rewrite E. apply IH1.
Qed.

Lemma words_collapse s : words (collapse false s) = words s.
Proof. apply split_words_collapse. Qed.

Lemma split_words_spaces_prefix u x :
  forallb is_space u = true -> split_words [] (u ++ x) = split_words [] x.
Proof.
  induction u as [|c u IH]; simpl; auto.
  rewrite andb_true_iff. intros [-> Hu]. auto.
Qed.

Lemma split_words_spaces v :
  forallb is_space v = true ->
  forall cur, split_words cur v = match cur with [] => [] | _ => [cur] end.
Proof.
  induction v as [|c v IH]; simpl; auto.
  rewrite andb_true_iff. intros [-> Hv] cur.
  rewrite (IH Hv []). reflexivity.
Qed.

Lemma split_words_spaces_suffix v x :
  forallb is_space v = true ->
  forall cur, split_words cur (x ++ v) = split_words cur x.
Proof.
  intros Hv. induction x as [|c x IH]; intros cur.
  - simpl. now apply split_words_spaces.
  - cbn [app split_words]. destruct (is_space c); [|apply IH].
    now rewrite IH.
Qed.

Lemma words_trim s : words (trim s) = words s.
Proof.
  destruct (NormalizerFacts.trim_spec s) as (u & v & E & Hu & Hv).
  unfold words. rewrite E at 2.
  rewrite split_words_spaces_prefix by assumption.
  now rewrite split_words_spaces_suffix.
Qed.

Lemma ends_clean_tail c t :
  t <> [] -> ends_clean (c :: t) = true -> ends_clean t = true.
Proof.
  unfold ends_clean. simpl. intros Ht.
  destruct (rev t) as [|x r] eqn:E; [|auto].
  exfalso. apply Ht. apply (f_equal (@rev _)) in E.
  now rewrite rev_involutive in E.
Qed.

Lemma ends_clean_last c : ends_clean [c] = true -> is_space c = false.
Proof. unfold ends_clean. simpl. apply negb_true_iff. Qed.

Lemma unwords_cons (ws : list jsstring) :
  ws <> [] -> flat_map (fun w' => 32%N :: w') ws = 32%N :: unwords ws.
Proof. destruct ws as [|w' rest]; [congruence|reflexivity]. Qed.

(** A text whose white space is single spaces between words is its words
    joined by single spaces. *)
Lemma unwords_split_words t : forall cur,
  (forall c, In c t -> is_space c = true -> c = 32%N) ->
  no_space_runs t = true ->
  ends_clean t = true ->
  (cur = [] -> starts_clean t = true) ->
  unwords (split_words cur t) = cur ++ t.
Proof.
  induction t as [|c t IH]; intros cur H32 Hruns Hend Hstart.
  - simpl. destruct cur; simpl; now rewrite ?app_nil_r.
  - assert (H32' : forall c', In c' t -> is_space c' = true -> c' = 32%N)
      by (intros c' Hc'; apply H32; now right).
    assert (Hruns' : no_space_runs t = true).
    { destruct t; [reflexivity|].
      rewrite NormalizerFacts.no_space_runs_cons in Hruns.
      now apply andb_true_iff in Hruns. }
    cbn [split_words]. destruct (is_space c) eqn:E.
    + assert (Ht : t <> []).
      { intros ->. apply ends_clean_last in Hend. congruence. }
      assert (Hst : starts_clean t = true).
      { destruct t as [|y t']; [congruence|].
        rewrite NormalizerFacts.no_space_runs_cons, E in Hruns.
        apply andb_true_iff in Hruns. destruct Hruns as [Hy _].
        simpl in *. exact Hy. }
      pose proof (IH [] H32' Hruns' (@ends_clean_tail c t Ht Hend) (fun _ => Hst)) as IHt.
      simpl in IHt.
      destruct cur as [|x cur'].
      * specialize (Hstart eq_refl). simpl in Hstart. rewrite E in Hstart.
        discriminate.
      * cbn [unwords]. rewrite unwords_cons.
        -- rewrite IHt, (H32 c (or_introl eq_refl) E). reflexivity.
        -- intros Hnil. rewrite Hnil in IHt. simpl in IHt. congruence.
    + rewrite IH; auto.
      * now rewrite <- app_assoc.
      * destruct t as [|y t']; [reflexivity|].
        apply (@ends_clean_tail c (y :: t')); [discriminate|assumption].
      * intros Hc. destruct cur; discriminate.
Qed.

End WordFacts.

(** [limparTexto] returns the words of the kept text, joined by single
    spaces. *)
Lemma limparTexto_words R texto :
  limparTexto R texto = unwords (words (kept (normalizeNFD R texto))).
Proof.
  unfold limparTexto. fold (kept (normalizeNFD R texto)).
  set (K := kept (normalizeNFD R texto)).
  rewrite <- (WordFacts.words_collapse K),
          <- (WordFacts.words_trim (Normalizer.collapse false K)).
  destruct (NormalizerFacts.trim_spec (Normalizer.collapse false K))
    as (u & v & E & Hu & Hv).
  symmetry. unfold words. rewrite WordFacts.unwords_split_words; auto.
  - intros c Hc Hs.
    destruct (@NormalizerFacts.collapse_In false K c) as [->|[_ Hn]];
      [|reflexivity|congruence].
    rewrite E. apply in_or_app. right. apply in_or_app. now left.
  - destruct (NormalizerFacts.collapse_runs K) as (H & _).
    rewrite E in H. apply NormalizerFacts.no_space_runs_suffix in H.
    now apply NormalizerFacts.no_space_runs_prefix in H.
  - apply NormalizerFacts.trim_ends_clean.
  - intros _. apply NormalizerFacts.trim_starts_clean.
Qed.

(** C7 (amended). [limparTexto] is a total function on strings, and for
    every input (given that the host's NFD decomposes the accented Latin-1
    letters) its output: is the words of the kept text (the code units of the
    decomposed input that are of the class [[a-zA-Z0-9À-ÿ,.!?()\-\s]] and
    are not combining marks) joined by single spaces, so that every run of
    white space between two words becomes one space and the white space at
    the ends is dropped; holds only code units of that class, none of them a
    combining mark U+0300-U+036F nor a letter with a canonical
    decomposition; has no white space other than single spaces between
    visible characters, none at either end; and keeps, in order, exactly the
    allowed visible code units of the decomposed input (the others are
    deleted, nothing is put in their place). *)
Theorem limparTexto_normalises (R : Runtime) (Hnfd : decomposes_latin1 R)
  (texto : jsstring) :
  limparTexto R texto = unwords (words (kept (normalizeNFD R texto)))
  /\ Forall (fun c => Chars.is_allowed c = true
                      /\ Chars.is_combining c = false
                      /\ Chars.latin1_decomposition c = None)
            (limparTexto R texto)
  /\ (forall c, In c (limparTexto R texto) -> Chars.is_space c = true -> c = 32%N)
  /\ no_space_runs (limparTexto R texto) = true
  /\ starts_clean (limparTexto R texto) = true
  /\ ends_clean (limparTexto R texto) = true
  /\ filter visible (limparTexto R texto)
     = filter (fun c => visible c && Chars.is_allowed c
                        && negb (Chars.is_combining c))
         (normalizeNFD R texto).
Proof.
  split; [apply limparTexto_words|].
  unfold limparTexto.
  set (nfd := normalizeNFD R texto).
  set (kept := filter Chars.is_allowed
                 (filter (fun c => negb (Chars.is_combining c)) nfd)).
  destruct (NormalizerFacts.trim_spec (Normalizer.collapse false kept))
    as (u & v & E & Hu & Hv).
  assert (Hin : forall c, In c (Normalizer.trim (Normalizer.collapse false kept)) ->
                c = 32%N \/ (In c kept /\ Chars.is_space c = false)).
  { intros c Hc. apply (@NormalizerFacts.collapse_In false).
    rewrite E. apply in_or_app. right. apply in_or_app. now left. }
  repeat split.
  - apply Forall_forall. intros c Hc.
    destruct (Hin c Hc) as [->|[Hk _]]; [repeat split; reflexivity|].
    unfold kept in Hk. apply filter_In in Hk. destruct Hk as [Hk Ha].
    apply filter_In in Hk. destruct Hk as [Hk Hm].
    apply negb_true_iff in Hm. repeat split; auto.
    exact (Hnfd texto c Hk).
  - intros c Hc Hs. destruct (Hin c Hc) as [->|[_ Hn]]; congruence.
  - destruct (NormalizerFacts.collapse_runs kept) as (H & _).
    rewrite E in H. apply NormalizerFacts.no_space_runs_suffix in H.
    now apply NormalizerFacts.no_space_runs_prefix in H.
  - apply NormalizerFacts.trim_starts_clean.
  - apply NormalizerFacts.trim_ends_clean.
  - transitivity (filter visible (Normalizer.collapse false kept)).
    + rewrite E at 2. rewrite !filter_app.
      rewrite (NormalizerFacts.filter_spaces u Hu),
              (NormalizerFacts.filter_spaces v Hv).
      now rewrite app_nil_r.
    + rewrite NormalizerFacts.collapse_visible. unfold kept.
      clearbody nfd. clear.
      induction nfd as [|c l IH]; simpl; auto.
      destruct (Chars.is_combining c); simpl.
      * rewrite andb_false_r. exact IH.
      * rewrite andb_true_r.
        destruct (Chars.is_allowed c); simpl.
        -- rewrite andb_true_r. destruct (visible c); now rewrite IH.
        -- rewrite andb_false_r. exact IH.
Qed.

(** *** The sample host decomposes the Latin-1 letters *)

Lemma latin1_decomposition_range c :
  (c <? 192)%N || (255 <? c)%N = true -> Chars.latin1_decomposition c = None.
Proof.
  unfold Chars.latin1_decomposition, Chars.between.
  rewrite orb_true_iff, !N.ltb_lt. intros H.
  destruct (N.leb_spec 192 c), (N.leb_spec c 222), (N.eqb_spec c 255),
    (N.leb_spec 224 c), (N.leb_spec c 254); simpl; try reflexivity; lia.
Qed.

Lemma latin1_decomposition_parts c b m :
  Chars.latin1_decomposition c = Some (b, m) ->
  Chars.latin1_decomposition b = None /\ Chars.latin1_decomposition m = None.
Proof.
  intros H.
  destruct ((c <? 192)%N || (255 <? c)%N) eqn:E.
  - rewrite latin1_decomposition_range in H by assumption. discriminate.
  - apply orb_false_iff in E. destruct E as [E1 E2].
    apply N.ltb_ge in E1, E2.
    assert (Hall : forallb
              (fun x => match Chars.latin1_decomposition x with
                        | Some (b, m) =>
                            match Chars.latin1_decomposition b,
                                  Chars.latin1_decomposition m with
                            | None, None => true
                            | _, _ => false
                            end
                        | None => true
                        end)
              (map N.of_nat (seq 192 64)) = true) by (vm_compute; reflexivity).
    rewrite forallb_forall in Hall.
    assert (Hin : In c (map N.of_nat (seq 192 64))).
    { apply in_map_iff. exists (N.to_nat c). split; [apply N2Nat.id|].
      apply in_seq. lia. }
    specialize (Hall c Hin). rewrite H in Hall.
    destruct (Chars.latin1_decomposition b), (Chars.latin1_decomposition m);
      try discriminate. auto.
Qed.

Lemma sample_runtime_decomposes : decomposes_latin1 sample_runtime.
Proof.
  intros s c. simpl. unfold nfd_latin1. rewrite in_flat_map.
  intros (x & _ & Hc).
  destruct (Chars.latin1_decomposition x) as [[b m]|] eqn:E.
  - apply latin1_decomposition_parts in E. destruct E.
    destruct Hc as [<-|[<-|[]]]; assumption.
  - destruct Hc as [<-|[]]. assumption.
Qed.

Example limparTexto_sample :
  limparTexto sample_runtime (js "  Ação   é  #1 @ São  Paulo! ")
  = js "Acao e 1 Sao Paulo!".
Proof. reflexivity. Qed.

Lemma limparTexto_normalises_witness :
  limparTexto sample_runtime (js "  Ação   é  #1 @ São  Paulo! ")
  = unwords [js "Acao"; js "e"; js "1"; js "Sao"; js "Paulo!"]
  /\ no_space_runs (limparTexto sample_runtime (js "  Ação   é  #1 @ São  Paulo! ")) = true
  /\ starts_clean (limparTexto sample_runtime (js "  Ação   é  #1 @ São  Paulo! ")) = true
  /\ ends_clean (limparTexto sample_runtime (js "  Ação   é  #1 @ São  Paulo! ")) = true.
Proof.
  destruct (limparTexto_normalises sample_runtime_decomposes
              (js "  Ação   é  #1 @ São  Paulo! "))
    as (H0 & _ & _ & H1 & H2 & H3 & _).
  split; [|auto]. rewrite H0. reflexivity.
Defined.

(** C7, as stated, fails: the class of the code has the whole range
    U+00C0-U+00FF, so the multiplication sign U+00D7, which is no letter,
    digit, listed punctuation mark or white space, is kept. *)
Lemma limparTexto_keeps_times_sign :
  limparTexto sample_runtime (js "2 × 3") = js "2 × 3"
  /\ (forall R, normalizeNFD R (js "2 × 3") = js "2 × 3" ->
        limparTexto R (js "2 × 3") = js "2 × 3")
  /\ In 215%N (js "2 × 3")
  /\ Chars.is_allowed 215%N = true
  /\ listed 215%N = false.
Proof.
  split; [reflexivity|]. split.
  - intros R H. unfold limparTexto. rewrite H. reflexivity.
  - split; [simpl; tauto|]. split; reflexivity.
Qed.


(** ** The document composer *)

Section Layout.
Variable R : Runtime.
Variable base : list prim.

Local Open Scope Z_scope.
Local Abbreviation Inv := (Inv base).

Lemma chain_snoc b p q : chain (b ++ [p]) -> follows p q -> chain ((b ++ [p]) ++ [q]).
Proof.
  induction b as [|a b IH]; intros H F.
  - simpl. auto.
  - change ((a :: b) ++ [p]) with (a :: (b ++ [p])) in *.
    destruct (b ++ [p]) as [|c t] eqn:E.
    + destruct b; discriminate.
    + destruct H as [H1 H2]. split; auto.
Qed.

Lemma placeLine_inv st body l :
  Inv st body ->
  exists p, pl_text p = l /\ Inv (placeLine st l) (body ++ [p]).
Proof.
  intros [Hp Hl Hc Hpg Hy Hlast Hfirst].
  unfold placeLine.
  destruct (bottom_margin <? cur_y st) eqn:E.
  - apply Z.ltb_lt in E.
    exists (mkLine (S (cur_page st)) top_margin l). split; [reflexivity|].
    constructor; cbn [cur_page cur_y placed].
    + rewrite Hp, map_app, app_assoc. reflexivity.
    + apply Forall_app. split.
      * eapply Forall_impl; [|exact Hl]. simpl. intros a [[? ?] ?].
        split; [lia|assumption].
      * constructor; [|constructor]. split; margins.
    + destruct Hlast as [->|(b & p & -> & Hpp & Hpy)]; [exact I|].
      apply chain_snoc; auto. right. simpl. auto.
    + lia.
    + margins.
    + right. exists body, (mkLine (S (cur_page st)) top_margin l).
      simpl. repeat split; auto. lia.
    + lia.
  - apply Z.ltb_ge in E.
    exists (mkLine (cur_page st) (cur_y st) l). split; [reflexivity|].
    constructor; cbn [cur_page cur_y placed].
    + rewrite Hp, map_app, app_assoc. reflexivity.
    + apply Forall_app. split; [exact Hl|].
      constructor; [|constructor]. split; margins.
    + destruct Hlast as [->|(b & p & -> & Hpp & Hpy)]; [exact I|].
      apply chain_snoc; auto. left. simpl. auto.
    + exact Hpg.
    + margins.
    + right. exists body, (mkLine (cur_page st) (cur_y st) l).
      simpl. repeat split; auto. lia.
    + intros H2. destruct (Hfirst H2) as [H3 H4].
      rewrite length_app. split; margins.
Qed.

Lemma gap_inv st body : Inv st body -> Inv (gap st) body.
Proof.
  intros [Hp Hl Hc Hpg Hy Hlast Hfirst].
  constructor; cbn [cur_page cur_y placed gap]; auto.
  - margins.
  - destruct Hlast as [->|(b & p & -> & Hpp & Hpy)]; auto.
    right. exists b, p. repeat split; auto. lia.
  - intros H2. destruct (Hfirst H2). split; auto. margins.
Qed.

(** Running a script keeps the invariant and draws its lines, one primitive
    each, in order. *)
Lemma exec_inv cs : forall st body,
  Inv st body ->
  exists ps, map pl_text ps = script_lines cs /\ Inv (exec st cs) (body ++ ps).
Proof.
  unfold exec.
  induction cs as [|[l|] cs IH]; simpl; intros st body H.
  - exists []. rewrite app_nil_r. auto.
  - destruct (placeLine_inv l H) as (p & Hp & H1).
    destruct (IH _ _ H1) as (ps & Hps & H2).
    exists (p :: ps). simpl. rewrite Hp, Hps. split; auto.
    now rewrite <- app_assoc in H2.
  - apply IH. now apply gap_inv.
Qed.

End Layout.

Lemma exec_app st cs1 cs2 : exec st (cs1 ++ cs2) = exec (exec st cs1) cs2.
Proof. unfold exec. apply fold_left_app. Qed.

(** The loops of [exportToPDF] run the script. *)
Lemma placeFragments_exec R fragments : forall st,
  placeFragments R st fragments = exec st (fragmentScript R fragments).
Proof.
  unfold placeFragments, fragmentScript, exec.
  induction fragments as [|f fs IH]; simpl; intros st; auto.
  rewrite IH, map_app, fold_left_app. f_equal.
  unfold placeFragment. generalize st.
  induction (splitTextToSize R f) as [|l ls IHl]; simpl; auto.
Qed.

Lemma narrative_exec R items : forall st st',
  narrative R items st = Ok st' ->
  exists cs, narrativeScript R items = Ok cs /\ st' = exec st cs.
Proof.
  induction items as [|item items IH]; simpl; intros st st' H.
  - injection H as <-. exists []. auto.
  - destruct (texto R item) as [t|]; cbn [bind] in *; [|discriminate].
    destruct (IH _ _ H) as (cs & -> & ->). cbn [bind].
    exists (fragmentScript R t ++ Gap :: cs). split; [reflexivity|].
    now rewrite exec_app, placeFragments_exec.
Qed.

(** Pages are only added; and none is added exactly when every line's natural
    ordinate is within the bottom margin. *)
Lemma exec_pages cs : forall st,
  (cur_page st <= cur_page (exec st cs))%nat
  /\ (cur_page (exec st cs) = cur_page st
      <-> Forall (fun y => (y <= bottom_margin)%Z) (natural (cur_y st) cs)).
Proof.
  unfold exec.
  induction cs as [|[l|] cs IH]; simpl; intros st.
  - split; [lia|]. split; auto.
  - destruct (IH (placeLine st l)) as [Hle Hiff]. unfold placeLine in *.
    destruct (bottom_margin <? cur_y st)%Z eqn:E; cbn [cur_page cur_y] in *.
    + apply Z.ltb_lt in E. split; [lia|]. split; [lia|].
      intros H. inversion H. lia.
    + apply Z.ltb_ge in E. split; [exact Hle|].
      rewrite Hiff. split.
      * intros H. constructor; assumption.
      * intros H. now inversion H.
  - apply (IH (gap st)).
Qed.

Lemma analysisStart_inv before :
  Inv (before ++ [Text 2 (js "Análise do Relatório") true top_margin])
      (analysisStart before) [].
Proof.
  constructor; simpl; auto.
  - now rewrite app_nil_r.
  - unfold top_margin. lia.
  - intros _. unfold top_margin, lineHeight. split; lia.
Qed.

(** A completed export ran the whole script from the start of the text
    section. *)
Lemma exportToPDF_Ok R pieRef barRef contaRef entries doc :
  exportToPDF R pieRef barRef contaRef entries = Ok doc ->
  exists cs final,
    bodyScript R entries = Ok cs
    /\ final = exec (analysisStart (cover pieRef barRef contaRef)) cs
    /\ doc = mkDocument (cur_page final) (placed final).
Proof.
  unfold exportToPDF, bodyScript.
  destruct (narrative R entries (analysisStart (cover pieRef barRef contaRef)))
    as [st|] eqn:N; unfold bind at 1; intros H; [|discriminate].
  destruct (narrative_exec _ _ _ N) as (cs & -> & ->). cbn [bind].
  eexists. eexists. split; [reflexivity|]. split; [reflexivity|].
  rewrite exec_app. cbn [exec fold_left].
  change (fold_left _ ?c ?s) with (exec s c).
  rewrite <- placeFragments_exec. congruence.
Qed.

(** C6. In the narrative and in the consolidated text every wrapped line is
    drawn exactly once, in order, at an ordinate between the top and the
    bottom margin: before a line is drawn, a cursor beyond the bottom margin
    starts a new page and is reset to the top margin. A page break therefore
    falls between two lines, also inside a fragment, and never inside a line.
    The text stays on its first page exactly when every line would fit there
    (ordinates counted from 30, 7 per line and 5 per gap, at most 280);
    otherwise pages are added. In particular more than 36 lines, the most the
    first text page holds, give at least a third page. *)
Theorem text_layout_paginates (R : Runtime) (pieRef barRef contaRef : option image)
  (entries : list Entry) (doc : document)
  (Hdoc : exportToPDF R pieRef barRef contaRef entries = Ok doc) :
  (forall st l, (bottom_margin < cur_y st)%Z ->
     placeLine st l
     = mkLayout (S (cur_page st)) (top_margin + lineHeight)
         (placed st ++ [Text (S (cur_page st)) l false top_margin]))
  /\ (forall st l, (cur_y st <= bottom_margin)%Z ->
     placeLine st l
     = mkLayout (cur_page st) (cur_y st + lineHeight)
         (placed st ++ [Text (cur_page st) l false (cur_y st)]))
  /\ exists cs body,
       bodyScript R entries = Ok cs
       /\ doc_prims doc
          = cover pieRef barRef contaRef
            ++ [Text 2 (js "Análise do Relatório") true top_margin]
            ++ map as_prim body
       /\ map pl_text body = script_lines cs
       /\ Forall (fun p => (2 <= pl_page p <= doc_pages doc)%nat
                           /\ (top_margin <= pl_y p <= bottom_margin)%Z) body
       /\ chain body
       /\ (2 <= doc_pages doc)%nat
       /\ (doc_pages doc = 2%nat
           <-> Forall (fun y => (y <= bottom_margin)%Z)
                      (natural (top_margin + 10) cs))
       /\ ((36 < length body)%nat -> (2 < doc_pages doc)%nat).
Proof.
  split; [|split].
  - intros st l H. unfold placeLine.
    apply Z.ltb_lt in H. now rewrite H.
  - intros st l H. unfold placeLine.
    apply Z.ltb_ge in H. rewrite H. now destruct st.
  - destruct (exportToPDF_Ok _ _ _ _ _ Hdoc) as (cs & final & Hcs & Hfinal & ->).
    destruct (exec_inv cs (analysisStart_inv (cover pieRef barRef contaRef)))
      as (body & Hbody & [Hp Hl Hc Hpg Hy Hlast Hfirst]).
    rewrite <- Hfinal in *. cbn [doc_pages doc_prims].
    exists cs, body.
    split; [exact Hcs|].
    split; [now rewrite Hp, <- app_assoc|].
    split; [exact Hbody|].
    split; [exact Hl|]. split; [exact Hc|]. split; [exact Hpg|].
    split.
    + rewrite Hfinal.
      exact (proj2 (exec_pages cs (analysisStart (cover pieRef barRef contaRef)))).
    + intros Hlen.
      destruct (Nat.eq_dec (cur_page final) 2) as [E|E]; [|lia].
      destruct (Hfirst E) as [_ H36].
      change ([] ++ body) with body in H36. lia.
Qed.

Lemma long_report_exported :
  exportToPDF sample_runtime None None None long_report = Ok long_report_doc.
Proof. vm_compute. reflexivity. Qed.

Lemma text_layout_paginates_witness : (2 < doc_pages long_report_doc)%nat.
Proof.
  destruct (text_layout_paginates _ _ _ _ _ long_report_exported)
    as (_ & _ & cs & body & Hcs & _ & Ht & _ & _ & _ & _ & Hcap).
  apply Hcap.
  rewrite <- (length_map pl_text), Ht.
  vm_compute in Hcs. injection Hcs as <-.
  vm_compute. repeat constructor.
Defined.

(** *** Failure of the export *)

Lemma call_limparTexto_Ok R v :
  is_text v = true -> exists s, call_limparTexto R v = Ok s.
Proof. destruct v; simpl; try discriminate. eauto. Qed.

Lemma texto_printable R e : printable e = true -> exists t, texto R e = Ok t.
Proof.
  unfold printable, texto. rewrite !andb_true_iff. intros [[H1 H2] H3].
  destruct (call_limparTexto_Ok R _ H1) as (s1 & ->).
  destruct (call_limparTexto_Ok R _ H2) as (s2 & ->).
  destruct (call_limparTexto_Ok R _ H3) as (s3 & ->).
  simpl. eauto.
Qed.

Lemma narrative_printable R entries :
  forallb printable entries = true ->
  forall st, exists st', narrative R entries st = Ok st'.
Proof.
  induction entries as [|e es IH]; simpl; intros H st; eauto.
  apply andb_true_iff in H. destruct H as [He Hes].
  destruct (texto_printable R e He) as (t & ->). simpl. auto.
Qed.

(** C9 fails on the code: the export aborts on a record imported from a
    numeric account cell. The import keeps the number, [limparTexto] is called
    on it, and the uncaught [TypeError] ends [exportToPDF] before [pdf.save]. *)
Theorem exportToPDF_aborts_on_numeric_cell (R : Runtime)
  (pieRef barRef contaRef : option image) :
  Entry.contaRazao (importRow R (hd [] numeric_account_sheet))
  = VNumber 5110507%float
  /\ exportToPDF R pieRef barRef contaRef
       (fromTabularRows R numeric_account_sheet) = TypeError.
Proof. split; reflexivity. Qed.

(** *** What a missing chart changes *)

Section Rebase.
Variable R : Runtime.
Variable pre : list prim.

Lemma placeLine_after st l : placeLine (after pre st) l = after pre (placeLine st l).
Proof.
  unfold placeLine, after. simpl.
  destruct (bottom_margin <? cur_y st)%Z; simpl; now rewrite app_assoc.
Qed.

Lemma gap_after st : gap (after pre st) = after pre (gap st).
Proof. reflexivity. Qed.

Lemma placeFragment_after linha : forall st,
  placeFragment R (after pre st) linha = after pre (placeFragment R st linha).
Proof.
  unfold placeFragment. induction (splitTextToSize R linha) as [|l ls IH];
    simpl; intros st; auto.
  now rewrite placeLine_after, IH.
Qed.

Lemma placeFragments_after fragments : forall st,
  placeFragments R (after pre st) fragments = after pre (placeFragments R st fragments).
Proof.
  unfold placeFragments. induction fragments as [|f fs IH]; simpl; intros st; auto.
  now rewrite placeFragment_after, IH.
Qed.

Lemma narrative_after items : forall st,
  narrative R items (after pre st)
  = match narrative R items st with
    | Ok st' => Ok (after pre st')
    | TypeError => TypeError
    end.
Proof.
  induction items as [|item items IH]; simpl; intros st; auto.
  destruct (texto R item) as [t|]; simpl; auto.
  now rewrite placeFragments_after, gap_after, IH.
Qed.

End Rebase.

(** X1. The text pages do not depend on the charts: the document is the cover
    followed by the text pages, whatever charts are present; and a missing
    chart adds nothing to the cover and leaves the cursor where it was. *)
Theorem charts_do_not_move_text (R : Runtime) (pieRef barRef contaRef : option image)
  (entries : list Entry) :
  (forall st, addImage None st = st)
  /\ cover None None None = [Text 1 (js "Relatório de Negociações") true 10]
  /\ exportToPDF R pieRef barRef contaRef entries
     = match textPages R entries with
       | Ok (pages, body) =>
           Ok (mkDocument pages (cover pieRef barRef contaRef ++ body))
       | TypeError => TypeError
       end.
Proof.
  split; [reflexivity|]. split; [reflexivity|].
  unfold exportToPDF, textPages.
  change (analysisStart (cover pieRef barRef contaRef))
    with (after (cover pieRef barRef contaRef)
            (mkLayout 2 (top_margin + 10)
               [Text 2 (js "Análise do Relatório") true top_margin])).
  rewrite narrative_after.
  destruct (narrative R entries _) as [st|]; cbn [bind]; auto.
  rewrite gap_after, placeFragments_after. reflexivity.
Qed.

(** X2. The export completes for every record set whose entries are
    printable, the empty one included, with or without charts. *)
Theorem exportToPDF_completes (R : Runtime) (pieRef barRef contaRef : option image)
  (entries : list Entry) (Hp : forallb printable entries = true) :
  exists doc, exportToPDF R pieRef barRef contaRef entries = Ok doc.
Proof.
  unfold exportToPDF.
  destruct (narrative_printable R entries Hp
              (analysisStart (cover pieRef barRef contaRef))) as (st & ->).
  cbn [bind]. eauto.
Qed.

Lemma exportToPDF_completes_witness :
  exists doc,
    exportToPDF sample_runtime
      (Some {| img_width := 800%float; img_height := 600%float |}) None
      (Some {| img_width := 800%float; img_height := 450%float |})
      (worked_example ++ [sample "5210401 Predial" 1000 800]) = Ok doc.
Proof. apply exportToPDF_completes. reflexivity. Defined.

(* ================================================================== *)
(** * Further properties *)

From Stdlib Require Import Permutation.


(** ** Manual entry and deletion *)

(** X3. Running [handleAdd] twice in a row adds at most one entry: after an
    accepted addition the form is empty and the second run is rejected, so the
    [Enter] listener followed by a click on the button, each seeing the state
    the other left, does not duplicate the record. *)
Theorem handleAdd_twice (R : Runtime) (s : AppState) :
  handleAdd (handleAdd s) = handleAdd s
  /\ step R Adicionar (step R KeyEnter s) = step R KeyEnter s.
Proof.
  assert (H : handleAdd (handleAdd s) = handleAdd s).
  { unfold handleAdd. destruct (handleAdd_accepts s) eqn:E.
    - reflexivity.
    - now rewrite E. }
  split; [exact H|]. exact H.
Qed.

Lemma removelast_snoc (A : Type) (l : list A) (x : A) : removelast (l ++ [x]) = l.
Proof.
  rewrite removelast_app by discriminate. simpl. apply app_nil_r.
Qed.

(** X4. "Limpar ultimo" undoes an addition: after an accepted [handleAdd] it
    gives back the record list as it was; on any list it removes the last
    entry only, and on the empty list it does nothing. *)
Theorem LimparUltimo_undoes_add (R : Runtime) (s : AppState) :
  (handleAdd_accepts s = true ->
     data (step R LimparUltimo (step R Adicionar s)) = data s)
  /\ (forall e d, data s = d ++ [e] -> data (step R LimparUltimo s) = d)
  /\ (data s = [] -> data (step R LimparUltimo s) = [])
  /\ length (data (step R LimparUltimo s)) = Nat.pred (length (data s)).
Proof.
  repeat split.
  - intros H. rewrite !step_data, H. apply removelast_snoc.
  - intros e d H. rewrite step_data, H. apply removelast_snoc.
  - intros H. rewrite step_data, H. reflexivity.
  - rewrite step_data, removelast_firstn_len, length_firstn. lia.
Qed.

Lemma LimparUltimo_undoes_add_witness :
  data (step sample_runtime LimparUltimo
          (step sample_runtime Adicionar
             (mkState [] (js "Alfa") (Some 10%float) (js "Beta") (Some 8%float)
                [] [] [] [] [])))
  = [].
Proof.
  apply (proj1 (LimparUltimo_undoes_add sample_runtime
                  (mkState [] (js "Alfa") (Some 10%float) (js "Beta")
                     (Some 8%float) [] [] [] [] []))).
  reflexivity.
Defined.

(** ** When the export fails *)

Lemma texto_unprintable R e : printable e = false -> texto R e = TypeError.
Proof.
  unfold printable, texto. intros H.
  destruct (Entry.fornecedor e); simpl in *; try reflexivity.
  destruct (js_or (Entry.area e) (VString (js "não informada")));
    simpl in *; try reflexivity.
  destruct (js_or (Entry.contaRazao e) (VString (js "não informada")));
    simpl in *; try reflexivity.
  discriminate.
Qed.

Lemma narrative_unprintable R entries :
  forallb printable entries = false ->
  forall st, narrative R entries st = TypeError.
Proof.
  induction entries as [|e es IH]; simpl; intros H st; [discriminate|].
  destruct (printable e) eqn:E.
  - destruct (texto_printable R e E) as (t & ->). simpl. now apply IH.
  - now rewrite texto_unprintable.
Qed.

(** X5. [exportToPDF] is aborted by a [TypeError] exactly when some entry is
    not printable, that is, holds a supplier that is not a string, or an area
    or an account that is neither a string nor falsy; the charts play no part
    in it. *)
Theorem exportToPDF_fails_iff (R : Runtime) (pieRef barRef contaRef : option image)
  (entries : list Entry) :
  exportToPDF R pieRef barRef contaRef entries = TypeError
  <-> exists item, In item entries /\ printable item = false.
Proof.
  destruct (forallb printable entries) eqn:E.
  - split.
    + intros H. unfold exportToPDF in H.
      destruct (narrative_printable R entries E
                  (analysisStart (cover pieRef barRef contaRef))) as (st & Hst).
      rewrite Hst in H. discriminate.
    + intros (item & Hin & Hp).
      rewrite forallb_forall in E. rewrite (E item Hin) in Hp. discriminate.
  - split.
    + intros _.
      destruct (forallb_forall printable entries) as [_ Hall].
      destruct (existsb (fun x => negb (printable x)) entries) eqn:X.
      * apply existsb_exists in X. destruct X as (item & Hin & Hp).
        exists item. split; auto. now apply negb_true_iff.
      * exfalso. assert (forallb printable entries = true); [|congruence].
        apply Hall. intros x Hx.
        destruct (printable x) eqn:Px; auto.
        assert (existsb (fun x => negb (printable x)) entries = true); [|congruence].
        apply existsb_exists. exists x. split; auto. now rewrite Px.
    + intros _. unfold exportToPDF.
      now rewrite narrative_unprintable.
Qed.

(** ** Sessions that can always be exported *)

Lemma text_cell_printable v d :
  text_cell v = true ->
  is_text (js_or (js_or v (VString [])) (VString d)) = true.
Proof.
  unfold text_cell. destruct (js_or v (VString [])) as [| | |s]; try discriminate.
  intros _. unfold js_or. destruct (ToBoolean (VString s)); reflexivity.
Qed.

Lemma importRow_printable R r : text_row r = true -> printable (importRow R r) = true.
Proof.
  unfold text_row, printable. rewrite !andb_true_iff. intros [[H1 H2] H3].
  cbn [importRow Entry.fornecedor Entry.area Entry.contaRazao].
  repeat split; auto using text_cell_printable.
Qed.

Lemma newEntry_printable s : printable (newEntry s) = true.
Proof.
  unfold printable, newEntry, js_or. simpl.
  destruct (area s), (contaRazao s); reflexivity.
Qed.

Lemma forallb_removelast (A : Type) (f : A -> bool) (l : list A) :
  forallb f l = true -> forallb f (removelast l) = true.
Proof.
  induction l as [|x l IH]; simpl; auto.
  rewrite andb_true_iff. intros [Hx Hl].
  destruct l; auto. simpl in *. rewrite Hx. auto.
Qed.

Lemma step_printable R ev s :
  text_event ev = true ->
  forallb printable (data s) = true ->
  forallb printable (data (step R ev s)) = true.
Proof.
  intros Hev Hs. rewrite step_data.
  destruct ev; auto using forallb_removelast.
  - destruct (handleAdd_accepts s); auto.
    rewrite forallb_app, Hs. simpl. now rewrite newEntry_printable.
  - destruct (handleAdd_accepts s); auto.
    rewrite forallb_app, Hs. simpl. now rewrite newEntry_printable.
  - destruct sheet as [rows|]; auto. simpl in Hev.
    unfold fromTabularRows. rewrite forallb_forall in *.
    intros e He. apply in_map_iff in He. destruct He as (r & <- & Hr).
    apply importRow_printable. auto.
Qed.

Lemma run_printable R evs : forall s,
  forallb text_event evs = true ->
  forallb printable (data s) = true ->
  forallb printable (data (run R evs s)) = true.
Proof.
  unfold run. induction evs as [|ev evs IH]; simpl; intros s H Hs; auto.
  apply andb_true_iff in H. destruct H as [Hev Hevs].
  apply IH; auto using step_printable.
Qed.

(** X6. Whatever is typed, added and deleted, and whatever sheets are loaded
    as long as their supplier, area and account cells are text (or empty),
    the record set can be exported: [exportToPDF] completes, with or without
    charts. Entries added by hand never make it fail. *)
Theorem text_sessions_export (R : Runtime) (evs : list event)
  (pieRef barRef contaRef : option image)
  (Htext : forallb text_event evs = true) :
  exists doc,
    exportToPDF R pieRef barRef contaRef (data (run R evs initial)) = Ok doc.
Proof.
  unfold exportToPDF.
  destruct (narrative_printable R (data (run R evs initial))
              (run_printable R evs initial Htext eq_refl)
              (analysisStart (cover pieRef barRef contaRef))) as (st & ->).
  cbn [bind]. eauto.
Qed.

Lemma text_sessions_export_witness :
  exists doc,
    exportToPDF sample_runtime None None None
      (data (run sample_runtime sample_session initial)) = Ok doc.
Proof. apply text_sessions_export. reflexivity. Defined.

(** ** What the spreadsheet export writes *)

Lemma text_settled_defined v : text_settled v -> v <> VUndefined.
Proof. unfold text_settled. intros H ->. discriminate. Qed.

Lemma js_or_defined v : js_or v (VString []) <> VUndefined.
Proof. unfold js_or. destruct v as [|[]|n|s]; simpl; try discriminate.
  destruct (truthy n); discriminate. destruct (negb (is_empty s)); discriminate.
Qed.

(** X7. For every record set the component can hold, [exportToExcel] writes
    rows of the seven named columns, in the same order, and no cell of any
    row is [undefined]. *)
Theorem exported_rows_complete (R : Runtime) (s : AppState) (Hs : reachable R s) :
  Forall (fun r =>
            columns r = [ js "Fornecedor"; js "Valor Cotado (R$)";
                          js "Valor Final (R$)"; js "Conta Razão"; js "Área";
                          js "Mês/Ano"; js "Período" ]
            /\ Forall (fun cell => snd cell <> VUndefined) r)
         (toTabularRows (data s)).
Proof.
  assert (H : Forall entry_settled (data s)).
  { apply (@reachable_Forall R entry_settled); auto.
    - intros r. exact (@importRow_settled R r).
    - intros s' Hacc. exact (@newEntry_settled s' Hacc). }
  unfold toTabularRows. apply Forall_forall. intros r Hr.
  apply in_map_iff in Hr. destruct Hr as (e & <- & He).
  rewrite Forall_forall in H. destruct (H e He) as (H1 & _).
  split; [reflexivity|].
  unfold exportRow. repeat constructor; simpl;
    auto using js_or_defined, text_settled_defined; discriminate.
Qed.

Lemma exported_rows_complete_witness :
  Forall (fun r =>
            columns r = [ js "Fornecedor"; js "Valor Cotado (R$)";
                          js "Valor Final (R$)"; js "Conta Razão"; js "Área";
                          js "Mês/Ano"; js "Período" ]
            /\ Forall (fun cell => snd cell <> VUndefined) r)
         (toTabularRows (data (run sample_runtime sample_session initial))).
Proof.
  apply (@exported_rows_complete sample_runtime).
  apply reachable_run. constructor.
Defined.

(** ** The per-category dictionary *)

Module DictMore.
Import Dict DictFacts.

Section Store.
Variables A B : Type.

(** The keys after a write: the same ones, or one more. *)
Lemma keys_set (o : Dict.t A) k (v : A) :
  match get o k with
  | Some _ => keys (set o k v) = keys o
  | None => Permutation (keys (set o k v)) (k :: keys o)
  end.
Proof.
  unfold set. destruct (get o k).
  - apply keys_update.
  - destruct (array_index k) as [i|].
    + destruct (insert_index_split i k v o) as (l1 & l2 & E & ->).
      subst o. unfold keys. rewrite !map_app. simpl.
      symmetry. apply Permutation_middle.
    + unfold keys. rewrite map_app. simpl.
      symmetry. apply Permutation_cons_append.
Qed.

Lemma keys_modify (o : Dict.t A) k f : keys (modify o k f) = keys o.
Proof.
  unfold keys. induction o as [|[k' v'] o IH]; simpl; auto.
  destruct (Str.eqb k' k); simpl; auto. now rewrite IH.
Qed.

Lemma get_modify_same (o : Dict.t A) k f :
  get (modify o k f) k = option_map f (get o k).
Proof.
  induction o as [|[k' v'] o IH]; simpl; auto.
  destruct (Str.eqb k' k) eqn:E; simpl; rewrite E; auto.
Qed.

Lemma get_modify_other (o : Dict.t A) k f k' :
  k' <> k -> get (modify o k f) k' = get o k'.
Proof.
  intros Hk. induction o as [|[k0 v0] o IH]; simpl; auto.
  destruct (Str.eqb k0 k) eqn:E; simpl.
  - apply Str_eqb_eq in E. subst k0.
    destruct (Str.eqb k k') eqn:E'; auto.
    apply Str_eqb_eq in E'. congruence.
  - destruct (Str.eqb k0 k'); auto.
Qed.

(** Nothing changes when the object has no such property. *)
Lemma modify_absent (o : Dict.t A) k f : get o k = None -> modify o k f = o.
Proof.
  induction o as [|[k0 v0] o IH]; simpl; auto.
  destruct (Str.eqb k0 k); [discriminate|]. intros H. now rewrite IH.
Qed.

Lemma In_get (o : Dict.t A) k (v : A) :
  NoDup (keys o) -> In (k, v) o -> get o k = Some v.
Proof.
  induction o as [|[k0 v0] o IH]; simpl; [tauto|].
  intros Hnd [H|H].
  - injection H as -> ->. now rewrite Str_eqb_refl.
  - inversion Hnd as [|? ? Hn Hnd']; subst.
    destruct (Str.eqb k0 k) eqn:E; auto.
    apply Str_eqb_eq in E. subst. exfalso. apply Hn.
    change k with (fst (k, v)). now apply in_map.
Qed.

(** A property is created at the same place in two objects with the same
    keys. *)
Lemma keys_set_like (o : Dict.t A) (d : Dict.t B) k (v : A) (w : B) :
  keys o = keys d -> keys (set o k v) = keys (set d k w).
Proof.
  intros H. unfold set.
  pose proof (get_existsb o k) as Ho.
  pose proof (get_existsb d k) as Hd.
  rewrite H in Ho. rewrite Ho in Hd.
  destruct (get o k), (get d k); try discriminate.
  - now rewrite !keys_update.
  - destruct (array_index k) as [i|].
    + now rewrite !keys_insert_index, H.
    + unfold keys in *. now rewrite !map_app, H.
Qed.

End Store.

End DictMore.

Lemma keys_order_In ks written k :
  keys_order ks written -> (In k ks <-> In k written).
Proof.
  intros (indices & others & -> & Hidx & _ & Hin & ->).
  rewrite in_app_iff, Hin, In_first_seen, filter_In, negb_true_iff.
  destruct (is_index k); split; try tauto; intros H; auto.
Qed.

Lemma finals_snoc R entries item k :
  finals R (entries ++ [item]) k
  = finals R entries k
    ++ (if Str.eqb (contaKey R item) k then [Entry.valorFinal item] else []).
Proof.
  unfold finals. rewrite filter_app, map_app. simpl.
  now destruct (Str.eqb (contaKey R item) k).
Qed.

Lemma runningSum_snoc vs v :
  runningSum (vs ++ [v])
  = Some (match runningSum vs with
          | Some x => or_else x zero
          | None => zero
          end + v)%float.
Proof. unfold runningSum. now rewrite fold_left_app. Qed.

Lemma accessor_not_method k :
  Proto.is_accessor k = true -> Proto.is_method k = false.
Proof.
  unfold Proto.is_accessor. intros H. apply Str_eqb_eq in H. now subst.
Qed.

Lemma method_not_accessor k :
  Proto.is_method k = true -> Proto.is_accessor k = false.
Proof.
  intros H. destruct (Proto.is_accessor k) eqn:E; auto.
  apply accessor_not_method in E. congruence.
Qed.

(** X8. What [contaMaisUsada] holds for a category depends on the entries of
    that category alone, in record order. For a name that [Object.prototype]
    does not have it is the number [(sum || 0) + valorFinal] accumulated from
    nothing. For the name of a method of [Object.prototype] it is a string:
    the source text of that function followed by the final values, each
    converted to a string. A category no entry has is absent, and the
    category [__proto__] is never recorded. *)
Theorem contaMaisUsada_per_category (R : Runtime) (entries : list Entry)
  (k : jsstring) :
  (Proto.is_accessor k = true -> Dict.get (contaMaisUsada R entries) k = None)
  /\ (Proto.inherits k = false ->
      Dict.get (contaMaisUsada R entries) k
      = option_map VNumber (runningSum (finals R entries k)))
  /\ (Proto.is_method k = true ->
      functionToString R (Proto.function_name k) <> [] ->
      Dict.get (contaMaisUsada R entries) k
      = match finals R entries k with
        | [] => None
        | vs => Some (VString (functionToString R (Proto.function_name k)
                               ++ flat_map (NumberToString R) vs))
        end).
Proof.
  induction entries as [|item es (IH1 & IH2 & IH3)] using rev_ind.
  - repeat split; reflexivity.
  - rewrite contaMaisUsada_snoc, finals_snoc. unfold write.
    destruct (Str.eqb (contaKey R item) k) eqn:E.
    + apply Str_eqb_eq in E. rewrite E. clear E. split; [|split].
      * intros Hk. rewrite Hk. now apply IH1.
      * intros Hk. destruct (inherits_false _ Hk) as [Ha Hm]. rewrite Ha.
        rewrite DictFacts.get_set_same, runningSum_snoc.
        unfold read. rewrite (IH2 Hk), Ha, Hm.
        destruct (runningSum (finals R es k)) as [x|]; simpl; [|reflexivity].
        unfold plus, or_zero, js_or, or_else. simpl.
        destruct (truthy x); reflexivity.
      * intros Hk Htext. rewrite (method_not_accessor _ Hk).
        rewrite DictFacts.get_set_same.
        unfold read. rewrite (IH3 Hk Htext), (method_not_accessor _ Hk), Hk.
        set (text := functionToString R (Proto.function_name k)) in *.
        destruct (finals R es k) as [|v vs]; simpl.
        -- now rewrite app_nil_r.
        -- unfold plus, or_zero, js_or. simpl.
           destruct (text ++ NumberToString R v ++ flat_map (NumberToString R) vs)
             as [|c s] eqn:Es.
           ++ destruct text; [congruence|discriminate].
           ++ change (negb (is_empty (c :: s))) with true. cbv iota.
              rewrite <- Es, flat_map_app. simpl.
              now rewrite app_nil_r, <- !app_assoc.
    + apply Str_eqb_neq in E. rewrite app_nil_r.
      assert (G : Dict.get
                    (if Proto.is_accessor (contaKey R item)
                     then contaMaisUsada R es
                     else Dict.set (contaMaisUsada R es) (contaKey R item)
                            (plus R (or_zero (read R (contaMaisUsada R es)
                                                (contaKey R item)))
                               (Entry.valorFinal item))) k
                  = Dict.get (contaMaisUsada R es) k).
      { destruct (Proto.is_accessor (contaKey R item)); [reflexivity|].
        apply DictFacts.get_set_other. congruence. }
      rewrite G. auto.
Qed.

Lemma contaMaisUsada_per_category_witness :
  Dict.get
    (contaMaisUsada sample_runtime
       [sample "X" 900 900; sample "constructor" 800 800; sample "X" 1 1;
        sample "constructor" 5 5])
    (js "constructor")
  = Some (VString (js "function Object() { [native code] }00")).
Proof.
  apply (proj2 (proj2 (contaMaisUsada_per_category sample_runtime
           [sample "X" 900 900; sample "constructor" 800 800; sample "X" 1 1;
            sample "constructor" 5 5] (js "constructor")))).
  - reflexivity.
  - discriminate.
Defined.

Lemma contaMaisUsada_keys R entries :
  NoDup (Dict.keys (contaMaisUsada R entries))
  /\ (forall k, In k (Dict.keys (contaMaisUsada R entries))
                <-> Proto.is_accessor k = false
                    /\ In k (map (contaKey R) entries))
  /\ (length (Dict.keys (contaMaisUsada R entries)) <= length entries)%nat.
Proof.
  induction entries as [|item es (Hnd & Hin & Hlen)] using rev_ind.
  - split; [constructor|]. split; [|simpl; lia]. simpl. tauto.
  - rewrite contaMaisUsada_snoc, map_app, length_app. simpl. unfold write.
    destruct (Proto.is_accessor (contaKey R item)) eqn:P.
    + split; [exact Hnd|]. split; [|lia].
      intros k. rewrite Hin, in_app_iff. simpl. split; [tauto|].
      intros [Hk [H|[<-|[]]]]; [tauto|congruence].
    + set (w := plus R _ _).
      pose proof (DictMore.keys_set (contaMaisUsada R es) (contaKey R item) w) as K.
      destruct (Dict.get (contaMaisUsada R es) (contaKey R item)) as [x|] eqn:G.
      * rewrite K. split; [exact Hnd|]. split; [|lia].
        intros k. rewrite Hin, in_app_iff. simpl. split; [tauto|].
        intros [Hk [H|[<-|[]]]]; [tauto|].
        apply Hin. eapply DictFacts.get_Some_In; eauto.
      * apply DictFacts.get_None_not_In in G. split; [|split].
        -- eapply Permutation_NoDup; [symmetry; exact K|]. now constructor.
        -- intros k. rewrite in_app_iff. simpl. split.
           ++ intros H. apply (Permutation_in _ K) in H.
              destruct H as [<-|H]; [tauto|]. apply Hin in H. tauto.
           ++ intros [Hk H]. apply (Permutation_in _ (Permutation_sym K)).
              destruct H as [H|[<-|[]]]; [right; apply Hin; tauto | now left].
        -- rewrite (Permutation_length K). simpl. lia.
Qed.

(** X9. [contaMaisUsada] has exactly one property per category that occurs,
    [__proto__] apart: its keys are pairwise different, a key is present if
    and only if it is not [__proto__] and some entry has that category
    (["Não informada"] standing for entries without one), and there are never
    more keys than entries. *)
Theorem contaMaisUsada_categories (R : Runtime) (entries : list Entry) :
  NoDup (Dict.keys (contaMaisUsada R entries))
  /\ (forall k, In k (Dict.keys (contaMaisUsada R entries))
                <-> Proto.is_accessor k = false
                    /\ exists item, In item entries /\ contaKey R item = k)
  /\ (length (Dict.keys (contaMaisUsada R entries)) <= length entries)%nat.
Proof.
  destruct (contaMaisUsada_keys R entries) as (Hnd & Hin & Hlen).
  split; [exact Hnd|]. split; [|exact Hlen].
  intros k. rewrite Hin, in_map_iff. split.
  - intros [Hk (item & E & Hi)]. eauto.
  - intros [Hk (item & Hi & E)]. eauto.
Qed.

(** ** The leading account *)

Lemma pick_fold_in R (m : Dict.t value) ks : forall a,
  fold_left (fun a b => if sum_gt R m a b then a else b) ks a = a
  \/ In (fold_left (fun a b => if sum_gt R m a b then a else b) ks a) ks.
Proof.
  induction ks as [|b t IH]; simpl; intros a; auto.
  destruct (sum_gt R m a b).
  - destruct (IH a); auto.
  - destruct (IH b) as [H|H]; auto; rewrite ?H; auto.
Qed.

(** [undefined] is greater than nothing. *)
Lemma greater_undefined R y : greater R (Prim VUndefined) y = false.
Proof.
  unfold greater. cbn [ToPrimitive ToNumber].
  destruct (ToPrimitive y); apply gt_NaN.
Qed.

Lemma contaTop_in_keys R entries :
  Dict.keys (contaMaisUsada R entries) <> [] ->
  In (contaTop R entries) (Dict.keys (contaMaisUsada R entries)).
Proof.
  intros Hne. unfold contaTop. set (m := contaMaisUsada R entries) in *.
  destruct (Dict.get m (js "Nenhuma")) as [x|] eqn:G.
  - destruct (pick_fold_in R m (Dict.keys m) (js "Nenhuma")) as [H|H]; auto.
    rewrite H. eapply DictFacts.get_Some_In; eauto.
  - destruct (Dict.keys m) as [|b t] eqn:K; [congruence|].
    cbn [fold_left].
    assert (P : (if sum_gt R m (js "Nenhuma") b then js "Nenhuma" else b) = b).
    { unfold sum_gt. rewrite (read_missing R _ _ G eq_refl).
      now rewrite greater_undefined. }
    rewrite P.
    destruct (pick_fold_in R m t b) as [H|H]; [rewrite H; now left | now right].
Qed.

(** X10. The leading account is the sentinel ["Nenhuma"], with the value 0,
    when [contaMaisUsada] has no key, which is the case exactly when every
    entry, if there is one, has the category [__proto__]; otherwise it is the
    category of one of the entries (so it is ["Nenhuma"] only if an entry's
    account is spelled that way), and the value shown beside it is what
    [contaMaisUsada] holds for that category, or 0 when that is falsy. *)
Theorem contaTop_is_a_category (R : Runtime) (entries : list Entry) :
  (Dict.keys (contaMaisUsada R entries) = []
   <-> forallb (fun item => Proto.is_accessor (contaKey R item)) entries = true)
  /\ (Dict.keys (contaMaisUsada R entries) = [] ->
        contaTop R entries = js "Nenhuma"
        /\ valorContaTop R entries = Prim (VNumber zero))
  /\ (Dict.keys (contaMaisUsada R entries) <> [] ->
        (exists item, In item entries /\ contaKey R item = contaTop R entries)
        /\ exists v,
             Dict.get (contaMaisUsada R entries) (contaTop R entries) = Some v
             /\ valorContaTop R entries = or_zero (Prim v)).
Proof.
  destruct (contaMaisUsada_keys R entries) as (_ & Hin & _).
  split; [|split].
  - rewrite forallb_forall. split.
    + intros E item Hi.
      destruct (Proto.is_accessor (contaKey R item)) eqn:P; [reflexivity|].
      exfalso. assert (H : In (contaKey R item) (Dict.keys (contaMaisUsada R entries))).
      { apply Hin. split; auto. now apply in_map. }
      rewrite E in H. destruct H.
    + intros Hall.
      destruct (Dict.keys (contaMaisUsada R entries)) as [|k ks] eqn:E; auto.
      exfalso. destruct (proj1 (Hin k) (or_introl eq_refl)) as [Hk Hm].
      apply in_map_iff in Hm. destruct Hm as (item & <- & Hi).
      rewrite (Hall item Hi) in Hk. discriminate.
  - intros E. unfold valorContaTop, contaTop. rewrite E.
    unfold Dict.keys in E. apply map_eq_nil in E. rewrite E. split; reflexivity.
  - intros Hne. pose proof (contaTop_in_keys R entries Hne) as Htop. split.
    + apply Hin in Htop. destruct Htop as [_ Htop].
      apply in_map_iff in Htop. destruct Htop as (item & E & Hi). eauto.
    + apply DictFacts.In_keys_get in Htop. destruct Htop as (v & Hv).
      exists v. split; [exact Hv|].
      unfold valorContaTop. now rewrite (read_own R _ _ Hv).
Qed.

Lemma contaTop_is_a_category_witness :
  exists item,
    In item [sample "B" 100 100; sample "__proto__" 900 900; sample "A" 100 300]
    /\ contaKey sample_runtime item
       = contaTop sample_runtime
           [sample "B" 100 100; sample "__proto__" 900 900; sample "A" 100 300].
Proof.
  apply (proj2 (proj2 (contaTop_is_a_category sample_runtime
           [sample "B" 100 100; sample "__proto__" 900 900; sample "A" 100 300]))).
  discriminate.
Defined.

Module FloatMore.
Local Open Scope float_scope.

Lemma SF_lt_le s1 s2 : SFltb s1 s2 = true -> SFleb s1 s2 = true.
Proof. revert s1 s2. sf_order. Qed.

Lemma SF_le_refl s : s <> S754_nan -> SFleb s s = true.
Proof. revert s. sf_order. Qed.

Lemma SF_le_eq s1 s2 s3 :
  SFleb s1 s2 = true -> SFeqb s2 s3 = true -> SFleb s1 s3 = true.
Proof. revert s1 s2 s3. sf_order. Qed.

Lemma lt_le (x y : float) : (x <? y) = true -> (x <=? y) = true.
Proof. rewrite ltb_spec, leb_spec. apply SF_lt_le. Qed.

Lemma le_refl (x : float) : PrimFloat.is_nan x = false -> (x <=? x) = true.
Proof.
  intros H. rewrite leb_spec. apply SF_le_refl. now apply FloatOrder.not_nan_spec.
Qed.

(** [y <= z] gives [y <= (z || 0)] when [z] is not [NaN]. *)
Lemma le_or_else (y z : float) :
  PrimFloat.is_nan z = false -> (y <=? z) = true -> (y <=? or_else z zero) = true.
Proof.
  intros Hz H. unfold or_else, truthy. rewrite Hz. simpl.
  destruct (PrimFloat.is_zero z) eqn:Z; simpl; auto.
  unfold PrimFloat.is_zero in Z. rewrite FloatAxioms.eqb_spec in Z.
  rewrite leb_spec in *. eapply SF_le_eq; eauto.
Qed.

End FloatMore.

(** X11. When no category is spelled like a member of [Object.prototype] and
    no category sum is [NaN], the value shown for the leading account is a
    number at least as large as the sum of every category: no category has
    summed a larger final value. *)
Theorem valorContaTop_dominates (R : Runtime) (entries : list Entry)
  (Hplain : plain_categories R entries = true)
  (sums_ordered : forall k x,
      Dict.get (contaMaisUsada R entries) k = Some (VNumber x) ->
      PrimFloat.is_nan x = false) :
  exists z,
    valorContaTop R entries = Prim (VNumber z)
    /\ forall k y, Dict.get (contaMaisUsada R entries) k = Some (VNumber y) ->
                   (y <=? z)%float = true.
Proof.
  pose proof (contaMaisUsada_numbers R entries Hplain) as Hnum.
  destruct (Dict.keys (contaMaisUsada R entries)) as [|k0 ks0] eqn:K.
  - exists zero. unfold valorContaTop, contaTop. rewrite K.
    unfold Dict.keys in K. apply map_eq_nil in K. rewrite K.
    split; [reflexivity|]. discriminate.
  - assert (Hne : Dict.keys (contaMaisUsada R entries) <> []) by (rewrite K; discriminate).
    destruct (@pick_keys R (contaMaisUsada R entries) Hnum sums_ordered
                (js "Nenhuma") eq_refl Hne)
      as (pre & post & z & E & Hz & Hpre & Hpost).
    fold (contaTop R entries) in E, Hz.
    exists (or_else z zero). split.
    + unfold valorContaTop. rewrite (read_own R _ _ Hz).
      unfold or_zero, js_or, or_else. simpl. destruct (truthy z); reflexivity.
    + intros k y Hy. apply FloatMore.le_or_else; eauto.
      pose proof (DictFacts.get_Some_In _ _ Hy) as Hin.
      rewrite E in Hin. apply in_app_or in Hin. destruct Hin as [Hin|[<-|Hin]].
      * eauto.
      * rewrite Hz in Hy. injection Hy as <-. apply FloatMore.le_refl. eauto.
      * apply FloatMore.lt_le. eauto.
Qed.

Lemma valorContaTop_dominates_witness :
  exists z,
    valorContaTop sample_runtime
      [sample "B" 100 100; sample "7" 100 50; sample "A" 100 300; sample "B" 10 150]
    = Prim (VNumber z)
    /\ forall k y,
         Dict.get (contaMaisUsada sample_runtime
                     [sample "B" 100 100; sample "7" 100 50; sample "A" 100 300;
                      sample "B" 10 150]) k
         = Some (VNumber y) ->
         (y <=? z)%float = true.
Proof.
  apply (@valorContaTop_dominates sample_runtime
           [sample "B" 100 100; sample "7" 100 50; sample "A" 100 300;
            sample "B" 10 150]).
  - reflexivity.
  - intros k x H.
    change (contaMaisUsada sample_runtime
              [sample "B" 100 100; sample "7" 100 50; sample "A" 100 300;
               sample "B" 10 150])
      with [(js "7", VNumber 50%float); (js "B", VNumber 250%float);
            (js "A", VNumber 300%float)] in H.
    cbn [Dict.get] in H.
    destruct (Str.eqb (js "7") k); [injection H as <-; reflexivity|].
    destruct (Str.eqb (js "B") k); [injection H as <-; reflexivity|].
    destruct (Str.eqb (js "A") k); [injection H as <-; reflexivity|discriminate].
Defined.

(** ** Pages of the exported document *)

Lemma ForallOrdPairs_snoc (A : Type) (Rel : A -> A -> Prop) (l : list A) (x : A) :
  ForallOrdPairs Rel l -> Forall (fun a => Rel a x) l ->
  ForallOrdPairs Rel (l ++ [x]).
Proof.
  induction 1 as [|a l Ha Hl IH]; simpl; intros H.
  - repeat constructor.
  - inversion H; subst. constructor; auto.
    apply Forall_app. split; auto.
Qed.

Lemma placeLine_drawn st n l : Drawn st n -> Drawn (placeLine st l) (S n).
Proof.
  intros [H1 Hpg Hev Hc Hsp Hab]. unfold placeLine.
  destruct (bottom_margin <? cur_y st)%Z eqn:E;
    constructor; cbn [cur_page cur_y placed].
  - lia.
  - apply Forall_app. split.
    + eapply Forall_impl; [|exact Hpg]. simpl. intros p ?. lia.
    + constructor; [simpl; lia|constructor].
  - intros pg Hr. destruct (Nat.eq_dec pg (S (cur_page st))) as [->|Hn].
    + do 3 eexists. apply in_or_app. right. left. reflexivity.
    + destruct (Hev pg) as (s & c & y & Hin); [lia|].
      exists s, c, y. apply in_or_app. now left.
  - lia.
  - apply ForallOrdPairs_snoc; auto.
    rewrite Forall_forall in *. intros [pg s c y|] Hin; simpl; auto.
    intros ->. specialize (Hpg _ Hin). simpl in Hpg. lia.
  - intros pg s c y Hin Hp. apply in_app_or in Hin.
    destruct Hin as [Hin|[Hin|[]]].
    + rewrite Forall_forall in Hpg. specialize (Hpg _ Hin). simpl in Hpg. lia.
    + injection Hin as <- <- <- <-. lia.
  - exact H1.
  - apply Forall_app. split; [exact Hpg|].
    constructor; [simpl; lia|constructor].
  - intros pg Hr. destruct (Hev pg Hr) as (s & c & y & Hin).
    exists s, c, y. apply in_or_app. now left.
  - lia.
  - apply ForallOrdPairs_snoc; auto.
    rewrite Forall_forall. intros [pg s c y|] Hin; simpl; auto.
    intros ->. eapply Hab; eauto.
  - intros pg s c y Hin Hp. apply in_app_or in Hin.
    destruct Hin as [Hin|[Hin|[]]].
    + specialize (Hab _ _ _ _ Hin Hp). unfold lineHeight in *. lia.
    + injection Hin as <- <- <- <-. lia.
Qed.

Lemma gap_drawn st n : Drawn st n -> Drawn (gap st) n.
Proof.
  intros [H1 Hpg Hev Hc Hsp Hab].
  constructor; cbn [cur_page cur_y placed gap]; auto.
  intros pg s c y Hin Hp. specialize (Hab _ _ _ _ Hin Hp). lia.
Qed.

Lemma exec_drawn cs : forall st n,
  Drawn st n -> Drawn (exec st cs) (n + length (script_lines cs)).
Proof.
  unfold exec.
  induction cs as [|[l|] cs IH]; simpl; intros st n H.
  - now rewrite Nat.add_0_r.
  - rewrite Nat.add_succ_r. apply (IH _ (S n)). now apply placeLine_drawn.
  - apply IH. now apply gap_drawn.
Qed.

(** The cover is the title followed by one image per rendered chart, all on
    page 1. *)
Lemma cover_shape pieRef barRef contaRef :
  exists imgs,
    cover pieRef barRef contaRef
    = Text 1 (js "Relatório de Negociações") true 10 :: imgs
    /\ Forall (fun p => is_image p = true /\ prim_page p = 1%nat) imgs
    /\ length imgs = (present pieRef + present barRef + present contaRef)%nat.
Proof.
  destruct pieRef, barRef, contaRef; cbn [cover addImage fst snd app present];
    eexists; (split; [reflexivity|]); split; try reflexivity;
    repeat constructor.
Qed.

Lemma analysisStart_drawn pieRef barRef contaRef :
  Drawn (analysisStart (cover pieRef barRef contaRef)) 0.
Proof.
  destruct (cover_shape pieRef barRef contaRef) as (imgs & -> & Himgs & _).
  rewrite Forall_forall in Himgs.
  constructor; cbn [analysisStart cur_page cur_y placed].
  - lia.
  - apply Forall_app. split.
    + constructor; [simpl; lia|].
      rewrite Forall_forall. intros p Hp. destruct (Himgs p Hp) as [_ ->]. lia.
    + constructor; [simpl; lia|constructor].
  - intros pg Hr. assert (pg = 1 \/ pg = 2)%nat as [->| ->] by lia.
    + do 3 eexists. left. reflexivity.
    + do 3 eexists. apply in_or_app. right. left. reflexivity.
  - lia.
  - apply ForallOrdPairs_snoc.
    + constructor.
      * rewrite Forall_forall. intros p Hp. destruct (Himgs p Hp) as [Hi _].
        destruct p; [discriminate|exact I].
      * induction imgs as [|q imgs IH]; constructor.
        -- rewrite Forall_forall. intros p Hp.
           destruct (Himgs q (or_introl eq_refl)) as [Hi _].
           destruct q; [discriminate|exact I].
        -- apply IH. intros p Hp. apply Himgs. now right.
    + constructor; [simpl; discriminate|].
      rewrite Forall_forall. intros p Hp. destruct (Himgs p Hp) as [Hi _].
      destruct p; [discriminate|exact I].
  - intros pg s c y Hin ->. apply in_app_or in Hin.
    destruct Hin as [[Hin|Hin]|[Hin|[]]].
    + discriminate.
    + destruct (Himgs _ Hin) as [_ Hp]. discriminate.
    + injection Hin as <- <- <-. unfold top_margin, lineHeight. lia.
Qed.



(** X13. Nothing is printed over: in a completed export any two texts on one
    page, titles included, are at least a line height apart, the one drawn
    later being the lower. *)
Theorem texts_never_overprint (R : Runtime) (pieRef barRef contaRef : option image)
  (entries : list Entry) (doc : document)
  (Hdoc : exportToPDF R pieRef barRef contaRef entries = Ok doc) :
  ForallOrdPairs spaced (doc_prims doc).
Proof.
  destruct (exportToPDF_Ok _ _ _ _ _ Hdoc) as (cs & final & Hcs & Hfinal & ->).
  destruct (exec_drawn cs (analysisStart_drawn pieRef barRef contaRef))
    as [H1 Hpg Hev Hc Hsp Hab].
  rewrite <- Hfinal in *. exact Hsp.
Qed.

Lemma texts_never_overprint_witness :
  ForallOrdPairs spaced (doc_prims long_report_doc).
Proof. exact (texts_never_overprint _ _ _ _ _ long_report_exported). Defined.


(** ** Normalising twice *)

Module NormalizerMore.
Import Chars Normalizer.

Lemma filter_all (A : Type) (f : A -> bool) (l : list A) :
  forallb f l = true -> filter f l = l.
Proof.
  induction l as [|x l IH]; simpl; auto.
  rewrite andb_true_iff. intros [-> H]. now rewrite IH.
Qed.

Lemma allowed_visible_latin1 c :
  is_allowed c = true -> is_space c = false -> (c <= 255)%N.
Proof.
  unfold is_allowed. intros H Hs. rewrite Hs, orb_false_r in H.
  unfold between in H.
  repeat (apply orb_true_iff in H; destruct H as [H|H]);
    rewrite ?andb_true_iff, ?N.leb_le, ?N.eqb_eq in H; lia.
Qed.

Lemma collapse_fixed s : forall b,
  (forall c, In c s -> is_space c = true -> c = 32%N) ->
  no_space_runs s = true ->
  (b = true -> starts_clean s = true) ->
  collapse b s = s.
Proof.
  induction s as [|x s IH]; intros b H32 Hruns Hb; [reflexivity|].
  assert (Hs : no_space_runs s = true).
  { destruct s; [reflexivity|].
    rewrite NormalizerFacts.no_space_runs_cons in Hruns.
    now apply andb_true_iff in Hruns. }
  assert (H32' : forall c, In c s -> is_space c = true -> c = 32%N)
    by (intros c Hc; apply H32; now right).
  cbn [collapse]. destruct (is_space x) eqn:E.
  - destruct b.
    + specialize (Hb eq_refl). simpl in Hb. rewrite E in Hb. discriminate.
    + rewrite (H32 x (or_introl eq_refl) E). f_equal.
      apply IH; auto. intros _.
      destruct s as [|y s]; [reflexivity|].
      rewrite NormalizerFacts.no_space_runs_cons, E in Hruns.
      apply andb_true_iff in Hruns. destruct Hruns as [Hy _].
      simpl in *. exact Hy.
  - f_equal. apply IH; auto. discriminate.
Qed.

Lemma trimStart_fixed s : starts_clean s = true -> trimStart s = s.
Proof.
  destruct s as [|c s]; simpl; auto.
  intros H. apply negb_true_iff in H. now rewrite H.
Qed.

Lemma trim_fixed s :
  starts_clean s = true -> ends_clean s = true -> trim s = s.
Proof.
  intros H1 H2. unfold trim, trimEnd. rewrite (trimStart_fixed s H1).
  unfold ends_clean in H2. rewrite (trimStart_fixed _ H2).
  apply rev_involutive.
Qed.

(** What every result of [limparTexto] looks like. *)
Lemma limparTexto_clean R texto :
  (forall c, In c (limparTexto R texto) ->
     c = 32%N
     \/ (In c (normalizeNFD R texto) /\ is_allowed c = true
         /\ is_combining c = false /\ is_space c = false))
  /\ no_space_runs (limparTexto R texto) = true
  /\ starts_clean (limparTexto R texto) = true
  /\ ends_clean (limparTexto R texto) = true.
Proof.
  unfold limparTexto.
  set (kept := filter is_allowed
                 (filter (fun c => negb (is_combining c)) (normalizeNFD R texto))).
  destruct (NormalizerFacts.trim_spec (collapse false kept))
    as (u & v & E & Hu & Hv).
  split; [|split; [|split]].
  - intros c Hc.
    destruct (@NormalizerFacts.collapse_In false kept c) as [->|[Hk Hn]]; auto.
    { rewrite E. apply in_or_app. right. apply in_or_app. now left. }
    right. unfold kept in Hk. apply filter_In in Hk. destruct Hk as [Hk Ha].
    apply filter_In in Hk. destruct Hk as [Hk Hm].
    apply negb_true_iff in Hm. auto.
  - destruct (NormalizerFacts.collapse_runs kept) as (H & _).
    rewrite E in H. apply NormalizerFacts.no_space_runs_suffix in H.
    now apply NormalizerFacts.no_space_runs_prefix in H.
  - apply NormalizerFacts.trim_starts_clean.
  - apply NormalizerFacts.trim_ends_clean.
Qed.

End NormalizerMore.

Lemma sample_runtime_fixes_inert : nfd_fixes_inert sample_runtime.
Proof.
  intros s. simpl. unfold nfd_latin1.
  induction s as [|c s IH]; simpl; auto.
  rewrite andb_true_iff. intros [Hc Hs]. unfold inert in Hc.
  apply andb_true_iff in Hc. destruct Hc as [_ Hc].
  destruct (Chars.latin1_decomposition c); [discriminate|].
  simpl. now rewrite IH.
Qed.

(** X15. Cleaning a cleaned text changes nothing: on a host whose NFD
    decomposes the accented Latin-1 letters and returns text without them as
    it is, [limparTexto] is idempotent. *)
Theorem limparTexto_idempotent (R : Runtime)
  (Hnfd : decomposes_latin1 R) (Hfix : nfd_fixes_inert R) (texto : jsstring) :
  limparTexto R (limparTexto R texto) = limparTexto R texto.
Proof.
  destruct (NormalizerMore.limparTexto_clean R texto) as (Hin & Hruns & Hs & He).
  set (t := limparTexto R texto) in *.
  unfold limparTexto at 1.
  assert (Hnf : normalizeNFD R t = t).
  { apply Hfix. apply forallb_forall. intros c Hc. unfold inert.
    destruct (Hin c Hc) as [->|(Hn & Ha & Hm & Hsp)]; [reflexivity|].
    rewrite (Hnfd texto c Hn), andb_true_r.
    apply N.leb_le. now apply NormalizerMore.allowed_visible_latin1. }
  rewrite Hnf.
  rewrite (@NormalizerMore.filter_all _ (fun c => negb (Chars.is_combining c)) t).
  2:{ apply forallb_forall. intros c Hc.
      destruct (Hin c Hc) as [->|(_ & _ & Hm & _)]; [reflexivity|].
      now rewrite Hm. }
  rewrite (@NormalizerMore.filter_all _ Chars.is_allowed t).
  2:{ apply forallb_forall. intros c Hc.
      destruct (Hin c Hc) as [->|(_ & Ha & _ & _)]; [reflexivity|assumption]. }
  rewrite (@NormalizerMore.collapse_fixed t false); auto; try discriminate.
  - now apply NormalizerMore.trim_fixed.
  - intros c Hc Hsp. destruct (Hin c Hc) as [->|(_ & _ & _ & Hn)]; congruence.
Qed.

Lemma limparTexto_idempotent_witness :
  limparTexto sample_runtime
    (limparTexto sample_runtime (js "  Ação   é  #1 @ São  Paulo! "))
  = limparTexto sample_runtime (js "  Ação   é  #1 @ São  Paulo! ").
Proof.
  apply limparTexto_idempotent.
  - exact sample_runtime_decomposes.
  - exact sample_runtime_fixes_inert.
Defined.

(** ** The account chart *)

Lemma fieldSum_snoc R field entries item k :
  fieldSum R field (entries ++ [item]) k
  = if Str.eqb (contaKey R item) k
    then (fieldSum R field entries k + field item)%float
    else fieldSum R field entries k.
Proof. unfold fieldSum. now rewrite fold_left_app. Qed.

(** No entry of that category, no sum. *)
Lemma fieldSum_absent R field entries k :
  ~ In k (map (contaKey R) entries) -> fieldSum R field entries k = zero.
Proof.
  induction entries as [|item es IH] using rev_ind; intros H; [reflexivity|].
  rewrite map_app, in_app_iff in H. rewrite fieldSum_snoc.
  destruct (Str.eqb (contaKey R item) k) eqn:E.
  - apply Str_eqb_eq in E. exfalso. apply H. right. now left.
  - apply IH. tauto.
Qed.

(** What the reducer of the account chart has built after each entry. *)
Lemma contaChart_fold R entries :
  keys_order (Dict.keys (fold_left (contaChartStep R) entries []))
    (filter (fun k => negb (Proto.inherits k)) (map (contaKey R) entries))
  /\ NoDup (Dict.keys (fold_left (contaChartStep R) entries []))
  /\ forall k b, Dict.get (fold_left (contaChartStep R) entries []) k = Some b ->
       ToString R (bar_conta b) = k
       /\ bar_valorInicial b = fieldSum R Entry.valorInicial entries k
       /\ bar_valorFinal b = fieldSum R Entry.valorFinal entries k.
Proof.
  induction entries as [|item es (Hk & Hnd & Hb)] using rev_ind.
  - split; [|split; [constructor|discriminate]].
    exists [], []. simpl. split; [reflexivity|]. split; [constructor|].
    split; [exact I|]. split; [|reflexivity]. intros k. tauto.
  - rewrite fold_left_app, map_app, filter_app. cbn [fold_left map filter].
    set (acc := fold_left (contaChartStep R) es []) in *.
    unfold contaChartStep. fold (contaKey R item).
    set (key := js_or (Entry.contaRazao item) (VString (js "Não informada"))).
    assert (Hown : forall k, In k (Dict.keys acc) ->
                   Proto.inherits k = false /\ In k (map (contaKey R) es)).
    { intros k Hin. apply (keys_order_In k Hk), filter_In in Hin.
      rewrite negb_true_iff in Hin. tauto. }
    unfold has_member.
    destruct (Dict.get acc (contaKey R item)) as [b0|] eqn:G.
    + (* a bar of that category exists *)
      destruct (Hown _ (DictFacts.get_Some_In _ _ G)) as [Hp _].
      rewrite Hp. cbn [negb]. rewrite DictMore.keys_modify. split; [|split].
      * rewrite <- (DictFacts.keys_update acc (contaKey R item) b0).
        replace (Dict.update acc (contaKey R item) b0)
          with (Dict.set acc (contaKey R item) b0)
          by (unfold Dict.set; now rewrite G).
        now apply keys_order_set.
      * exact Hnd.
      * intros k b. rewrite !fieldSum_snoc.
        destruct (Str.eqb (contaKey R item) k) eqn:E.
        -- apply Str_eqb_eq in E. subst k.
           rewrite DictMore.get_modify_same, G. simpl.
           intros H. injection H as <-. simpl.
           destruct (Hb _ _ G) as (H1 & H2 & H3). now rewrite H2, H3.
        -- apply Str_eqb_neq in E.
           rewrite DictMore.get_modify_other by congruence. apply Hb.
    + destruct (Proto.inherits (contaKey R item)) eqn:Hp; cbn [negb].
      * (* the name of a member of Object.prototype: no bar *)
        rewrite DictMore.modify_absent by assumption. rewrite app_nil_r.
        split; [exact Hk|]. split; [exact Hnd|].
        intros k b Hkb. rewrite !fieldSum_snoc.
        destruct (Str.eqb (contaKey R item) k) eqn:E; [|now apply Hb].
        apply Str_eqb_eq in E. subst k. congruence.
      * (* a new category *)
        rewrite DictMore.keys_modify. split; [|split].
        -- now apply keys_order_set.
        -- pose proof (DictMore.keys_set acc (contaKey R item) (mkBar key 0%float 0%float)) as K.
           rewrite G in K. eapply Permutation_NoDup; [symmetry; exact K|].
           constructor; [|exact Hnd]. now apply DictFacts.get_None_not_In.
        -- intros k b. rewrite !fieldSum_snoc.
           destruct (Str.eqb (contaKey R item) k) eqn:E.
           ++ apply Str_eqb_eq in E. subst k.
              rewrite DictMore.get_modify_same, DictFacts.get_set_same. simpl.
              intros H. injection H as <-. simpl.
              split; [reflexivity|].
              assert (Hno : ~ In (contaKey R item) (map (contaKey R) es)).
              { intros Hin. apply DictFacts.get_None_not_In in G. apply G.
                apply (keys_order_In _ Hk), filter_In.
                split; [exact Hin|]. now rewrite Hp. }
              now rewrite !(fieldSum_absent R _ es _ Hno).
           ++ apply Str_eqb_neq in E.
              rewrite DictMore.get_modify_other by congruence.
              rewrite DictFacts.get_set_other by congruence. apply Hb.
Qed.

(** With plain categories the chart has the keys of [contaMaisUsada]. *)
Lemma contaChart_keys R entries :
  plain_categories R entries = true ->
  Dict.keys (fold_left (contaChartStep R) entries [])
  = Dict.keys (contaMaisUsada R entries).
Proof.
  induction entries as [|item es IH] using rev_ind; intros Hp; [reflexivity|].
  apply plain_categories_snoc in Hp. destruct Hp as [Hes Hk].
  specialize (IH Hes).
  rewrite fold_left_app, contaMaisUsada_snoc, write_plain by assumption.
  cbn [fold_left]. set (acc := fold_left (contaChartStep R) es []) in *.
  unfold contaChartStep, has_member. fold (contaKey R item).
  rewrite DictMore.keys_modify, Hk.
  destruct (Dict.get acc (contaKey R item)) as [b0|] eqn:G.
  - rewrite <- (DictFacts.keys_update acc (contaKey R item) b0).
    replace (Dict.update acc (contaKey R item) b0)
      with (Dict.set acc (contaKey R item) b0)
      by (unfold Dict.set; now rewrite G).
    now apply DictMore.keys_set_like.
  - now apply DictMore.keys_set_like.
Qed.

(** X16. The account chart shows one group of bars per category that is not
    spelled like a member of [Object.prototype], in the order of
    [Object.keys] (array indices ascending, then first occurrence); the
    group is labelled with the category and its two bars are the sums of the
    quoted and of the final values of the entries of that category, added in
    record order from 0. With plain categories these are the keys of
    [contaMaisUsada], in the same order. *)
Theorem contaChart_groups (R : Runtime) (entries : list Entry) :
  keys_order (map (fun b => ToString R (bar_conta b)) (contaChartData R entries))
    (filter (fun k => negb (Proto.inherits k)) (map (contaKey R) entries))
  /\ Forall (fun b =>
               bar_valorInicial b
               = fieldSum R Entry.valorInicial entries (ToString R (bar_conta b))
               /\ bar_valorFinal b
                  = fieldSum R Entry.valorFinal entries (ToString R (bar_conta b)))
            (contaChartData R entries)
  /\ (plain_categories R entries = true ->
      map (fun b => ToString R (bar_conta b)) (contaChartData R entries)
      = Dict.keys (contaMaisUsada R entries)).
Proof.
  destruct (contaChart_fold R entries) as (Hk & Hnd & Hb).
  unfold contaChartData.
  set (acc := fold_left (contaChartStep R) entries []) in *.
  assert (Hin : forall b, In b (Dict.values acc) ->
                exists k, Dict.get acc k = Some b).
  { intros b H. apply in_map_iff in H. destruct H as ([k b'] & <- & H).
    exists k. now apply DictMore.In_get. }
  assert (Hlabels : map (fun b => ToString R (bar_conta b)) (Dict.values acc)
                    = Dict.keys acc).
  { unfold Dict.values, Dict.keys. rewrite map_map. apply map_ext_in.
    intros [k b] H. simpl. apply (Hb k b). now apply DictMore.In_get. }
  rewrite Hlabels. split; [exact Hk|]. split.
  - apply Forall_forall. intros b H. destruct (Hin b H) as (k & G).
    destruct (Hb k b G) as (<- & H1 & H2). auto.
  - now apply contaChart_keys.
Qed.

Lemma contaChart_groups_witness :
  map (fun b => ToString sample_runtime (bar_conta b))
    (contaChartData sample_runtime
       [sample "B" 100 100; sample "7" 100 50; sample "A" 100 300;
        sample "B" 10 150])
  = Dict.keys
      (contaMaisUsada sample_runtime
         [sample "B" 100 100; sample "7" 100 50; sample "A" 100 300;
          sample "B" 10 150]).
Proof.
  apply (proj2 (proj2 (contaChart_groups sample_runtime
           [sample "B" 100 100; sample "7" 100 50; sample "A" 100 300;
            sample "B" 10 150]))).
  reflexivity.
Defined.
